(** * mimic-core [utils.ts]: git detection, recursive reading, race-to-success

    A shallow embedding of [packages/mimic-core/src/utils.ts].

    - JavaScript strings are modelled by [string]; one [ascii] stands for one
      code unit.
    - A promise is modelled by its eventual outcome ([Pending] when it never
      settles).  Where several promises are joined by [Promise.all], the order
      in which they settle is an explicit argument (a schedule of indices).
    - Node's [fs] is a record of total functions from paths to results (the
      file system does not change while a function runs); the callback style
      of [fs.stat]/[fs.readFile] becomes a returned result, and the calls
      issued by the sequential functions are logged.
    - Node's POSIX [path] module is modelled by the functions of [Module Path].
    - The two recursive functions take the number of nested calls allowed as
      their first argument. *)

From Stdlib Require Import Ascii String.
From stdpp Require Import base option list gmap strings fin_maps.

Local Open Scope string_scope.
Local Open Scope list_scope.

(** ** JavaScript values used by the code *)

Module JS.

(** Outcome of [fs] callbacks: [(err, value)]. *)
Inductive result (E A : Type) : Type :=
| Ok (a : A)
| Err (e : E).
Arguments Ok {E A} a.
Arguments Err {E A} e.

(** Eventual state of a promise. *)
Inductive promise (A E : Type) : Type :=
| Pending
| Fulfilled (a : A)
| Rejected (e : E).
Arguments Pending {A E}.
Arguments Fulfilled {A E} a.
Arguments Rejected {A E} e.

(** [p.then(onFulfilled, onRejected)] where both handlers return promises. *)
Definition then_ {A E B F : Type} (p : promise A E)
    (onFulfilled : A -> promise B F) (onRejected : E -> promise B F) : promise B F :=
  match p with
  | Pending => Pending
  | Fulfilled a => onFulfilled a
  | Rejected e => onRejected e
  end.

(** The values array of [Promise.all] once every slot has been written. *)
Definition collected {A : Type} (values : list (option A)) : list A :=
  omap id values.

(** [Promise.all]: reactions run in the order in which the input promises
    settle.  A fulfilment writes its slot (once) and decrements the counter of
    remaining elements, resolving the result when it reaches zero; the first
    rejection rejects the result. *)
Fixpoint all_run {A E : Type} (ps : list (promise A E))
    (values : list (option A)) (remaining : nat) (schedule : list nat)
    : promise (list A) E :=
  match schedule with
  | [] => Pending
  | i :: rest =>
      match ps !! i with
      | Some (Fulfilled a) =>
          match values !! i with
          | Some None =>
              let values' := <[i := Some a]> values in
              let remaining' := remaining - 1 in
              if Nat.eqb remaining' 0 then Fulfilled (collected values')
              else all_run ps values' remaining' rest
          | _ => all_run ps values remaining rest
          end
      | Some (Rejected e) => Rejected e
      | _ => all_run ps values remaining rest
      end
  end.

Definition promiseAll {A E : Type} (ps : list (promise A E)) (schedule : list nat)
    : promise (list A) E :=
  if Nat.eqb (length ps) 0 then Fulfilled []
  else all_run ps (replicate (length ps) None) (length ps) schedule.

(** [s.slice(start, end)]: negative indices count from the end of the string
    and both indices are clamped to [0 .. s.length]. *)
Definition slice (s : string) (start end_ : Z) : string :=
  let len := Z.of_nat (String.length s) in
  let from := if (start <? 0)%Z then Z.max (len + start) 0 else Z.min start len in
  let to := if (end_ <? 0)%Z then Z.max (len + end_) 0 else Z.min end_ len in
  substring (Z.to_nat from) (Z.to_nat (Z.max (to - from) 0)) s.

(** [s.includes(t)]. *)
Fixpoint includes (s t : string) : bool :=
  if String.prefix t s then true
  else match s with
       | EmptyString => false
       | String _ s' => includes s' t
       end.

(** [s.endsWith(t)]. *)
Fixpoint endsWith (s t : string) : bool :=
  if String.eqb s t then true
  else match s with
       | EmptyString => false
       | String _ s' => endsWith s' t
       end.

(** [Object.assign({}, ...values)] on objects used as string-keyed maps:
    later sources overwrite earlier ones. *)
Definition Object_assign {V : Type} (target : gmap string V) (sources : list (gmap string V))
    : gmap string V :=
  foldl (fun acc src => src ∪ acc) target sources.

End JS.
Import JS.

(** ** Node's POSIX [path] module

    [normalizeString] is modelled on path segments: the path is split at
    ["/"], empty and ["."] segments are dropped and [".."] removes the segment
    before it (or is kept, for a relative path, when there is none).
    [dirname] and [extname] follow Node's right-to-left scans. *)

Module Path.

Definition isAbsolute (p : string) : bool :=
  match p with
  | String c _ => Ascii.eqb c "/"
  | EmptyString => false
  end.

Fixpoint split_slash (s : string) : list string :=
  match s with
  | EmptyString => [EmptyString]
  | String c s' =>
      if Ascii.eqb c "/" then EmptyString :: split_slash s'
      else match split_slash s' with
           | seg :: segs => String c seg :: segs
           | [] => [String c EmptyString]
           end
  end.

Definition join_slash (segs : list string) : string := String.concat "/" segs.

(** One step of [normalizeString]; [stack] holds the kept segments, the last
    one first. *)
Definition push_segment (allowAboveRoot : bool) (stack : list string) (seg : string)
    : list string :=
  if String.eqb seg "" || String.eqb seg "." then stack
  else if String.eqb seg ".." then
    match stack with
    | top :: below =>
        if String.eqb top ".." then (if allowAboveRoot then ".." :: stack else stack)
        else below
    | [] => if allowAboveRoot then [".."] else []
    end
  else seg :: stack.

Definition normalize_segments (allowAboveRoot : bool) (segs : list string) : list string :=
  rev (foldl (push_segment allowAboveRoot) [] segs).

Definition normalizeString (p : string) (allowAboveRoot : bool) : string :=
  join_slash (normalize_segments allowAboveRoot (split_slash p)).

Definition normalize (p : string) : string :=
  if String.eqb p "" then "."
  else
    let isAbs := isAbsolute p in
    let trailingSeparator := endsWith p "/" in
    let q := normalizeString p (negb isAbs) in
    if String.eqb q "" then
      if isAbs then "/" else if trailingSeparator then "./" else "."
    else
      let q := if trailingSeparator then q +:+ "/" else q in
      if isAbs then "/" +:+ q else q.

(** [path.join(a, b)]. *)
Definition join (a b : string) : string :=
  if String.eqb a "" then (if String.eqb b "" then "." else normalize b)
  else if String.eqb b "" then normalize a
  else normalize (a +:+ "/" +:+ b).

(** [path.resolve(p)] in a process whose working directory is [cwd]. *)
Definition resolve (cwd p : string) : string :=
  let resolvedPath := if String.eqb p "" then "" else p +:+ "/" in
  let resolvedAbsolute := isAbsolute p in
  let resolvedPath' :=
    if resolvedAbsolute || String.eqb cwd "" then resolvedPath
    else cwd +:+ "/" +:+ resolvedPath in
  let resolvedAbsolute' := resolvedAbsolute || isAbsolute cwd in
  let r := normalizeString resolvedPath' (negb resolvedAbsolute') in
  if resolvedAbsolute' then "/" +:+ r
  else if String.eqb r "" then "." else r.

(** The loop of [dirname], over the characters [path[len-1] .. path[1]];
    [i] is the index of the head of [rchars].  Returns [end]. *)
Fixpoint dirname_scan (rchars : list ascii) (i : nat) (matchedSlash : bool) : option nat :=
  match rchars with
  | [] => None
  | c :: r =>
      if Ascii.eqb c "/" then
        if negb matchedSlash then Some i else dirname_scan r (i - 1) matchedSlash
      else dirname_scan r (i - 1) false
  end.

Definition dirname (p : string) : string :=
  match p with
  | EmptyString => "."
  | String c0 tl =>
      let hasRoot := Ascii.eqb c0 "/" in
      match dirname_scan (rev (list_ascii_of_string tl)) (String.length p - 1) true with
      | None => if hasRoot then "/" else "."
      | Some e => if hasRoot && Nat.eqb e 1 then "//" else substring 0 e p
      end
  end.

Record ext_state := {
  startDot : option nat;
  startPart : nat;
  ext_end : option nat;
  matchedSlash : bool;
  preDotState : Z
}.

(** The loop of [extname], over the characters [path[len-1] .. path[0]]. *)
Fixpoint extname_scan (rchars : list ascii) (i : nat) (st : ext_state) : ext_state :=
  match rchars with
  | [] => st
  | code :: r =>
      if Ascii.eqb code "/" then
        if negb (matchedSlash st) then
          {| startDot := startDot st; startPart := i + 1; ext_end := ext_end st;
             matchedSlash := matchedSlash st; preDotState := preDotState st |}
        else extname_scan r (i - 1) st
      else
        let st1 :=
          match ext_end st with
          | None => {| startDot := startDot st; startPart := startPart st;
                       ext_end := Some (i + 1); matchedSlash := false;
                       preDotState := preDotState st |}
          | Some _ => st
          end in
        let st2 :=
          if Ascii.eqb code "." then
            match startDot st1 with
            | None => {| startDot := Some i; startPart := startPart st1;
                         ext_end := ext_end st1; matchedSlash := matchedSlash st1;
                         preDotState := preDotState st1 |}
            | Some _ => {| startDot := startDot st1; startPart := startPart st1;
                           ext_end := ext_end st1; matchedSlash := matchedSlash st1;
                           preDotState := 1 |}
            end
          else
            match startDot st1 with
            | Some _ => {| startDot := startDot st1; startPart := startPart st1;
                           ext_end := ext_end st1; matchedSlash := matchedSlash st1;
                           preDotState := (-1) |}
            | None => st1
            end in
        extname_scan r (i - 1) st2
  end.

Definition extname (p : string) : string :=
  let st := extname_scan (rev (list_ascii_of_string p)) (String.length p - 1)
              {| startDot := None; startPart := 0; ext_end := None;
                 matchedSlash := true; preDotState := 0 |} in
  match startDot st, ext_end st with
  | Some sd, Some e =>
      if (preDotState st =? 0)%Z
         || ((preDotState st =? 1)%Z && Nat.eqb sd (e - 1) && Nat.eqb sd (startPart st + 1))
      then ""
      else substring sd (e - sd) p
  | _, _ => ""
  end.

End Path.

(** ** Node's [fs] module *)

Inductive Error : Type :=
| SystemError (code : string)   (** an error reported by [fs], e.g. ENOENT, EACCES *)
| NewError (message : string).  (** [new Error(message)] *)

Inductive FileType : Type :=
| RegularFile | Directory | BlockDevice | CharacterDevice | FIFO | Socket.

Record Stats := { st_type : FileType }.

Definition isFile (stats : Stats) : bool :=
  match st_type stats with RegularFile => true | _ => false end.

Definition isDirectory (stats : Stats) : bool :=
  match st_type stats with Directory => true | _ => false end.

(** The state of the file system and of the process, as seen by the calls
    the code makes. *)
Record FileSystem := {
  stat : string -> result Error Stats;
  readFile : string -> result Error string;   (** with encoding "utf8" *)
  readdir : string -> result Error (list string);
  cwd : string                                (** [process.cwd()] *)
}.

(** Calls issued to [fs], in the order they are made. *)
Inductive FsCall : Type :=
| StatCall (p : string)
| ReadFileCall (p : string).

(** Computations over a file system that log the calls they make. *)
Definition IO (A : Type) : Type := FileSystem -> list FsCall * A.

Definition ret {A : Type} (a : A) : IO A := fun _ => ([], a).

Definition bind {A B : Type} (m : IO A) (k : A -> IO B) : IO B :=
  fun fs => let '(log1, a) := m fs in
            let '(log2, b) := k a fs in
            (log1 ++ log2, b).

Notation "'do' x <- m ; k" := (bind m (fun x => k))
  (at level 10, x name, m at level 100, k at level 200).

Definition fs_stat (p : string) : IO (result Error Stats) :=
  fun fs => ([StatCall p], stat fs p).

Definition fs_readFile (p : string) : IO (result Error string) :=
  fun fs => ([ReadFileCall p], readFile fs p).

(** ** [readGitMeta] and [detectGit] *)

Record IGit := { root : string; branch : string; head : string }.

Definition readGitMeta (root : string) : IO (result Error IGit) :=
  do branchRes <- fs_readFile (Path.join root ".git/HEAD");
  match branchRes with
  | Err branchErr => ret (Err branchErr)
  | Ok branchData =>
      let branch := slice branchData 16 (-1) in
      do headRes <- fs_readFile (Path.join root (".git/refs/heads/" +:+ branch));
      match headRes with
      | Err headErr => ret (Err headErr)
      | Ok head => ret (Ok {| root := root; head := head; branch := branch |})
      end
  end.

Definition no_git_root : Error := NewError "no git root detected".

(** [detectGit(directory, callback, iter)]; the value is what [callback]
    receives, [None] when [fuel] nested calls were not enough to reach it. *)
Fixpoint detectGit_from (fuel : nat) (directory : string) (iter : nat)
    : IO (option (result Error IGit)) :=
  match fuel with
  | 0 => ret None
  | S fuel' =>
      if String.eqb directory "/" || Nat.eqb iter 10 then
        ret (Some (Err no_git_root))
      else
        let dir := Path.dirname directory in
        do statRes <- fs_stat (dir +:+ "/.git");
        match statRes with
        | Err _ => detectGit_from fuel' dir (iter + 1)
        | Ok _ => do git <- readGitMeta dir; ret (Some git)
        end
  end.

(** [detectGit(directory, callback)], with the default [iter = 0]. *)
Definition detectGit (directory : string) : IO (option (result Error IGit)) :=
  detectGit_from 11 directory 0.

(** ** [raceSuccess] *)

Definition raceSuccess {S E : Type} (promises : list (promise S E)) (schedule : list nat)
    : promise S (list E) :=
  then_
    (promiseAll
       (map (fun p => then_ p (fun val => Rejected val) (fun err => Fulfilled err)) promises)
       schedule)
    (fun errors => Rejected errors)
    (fun val => Fulfilled val).

(** ** [readFileAsync] and [readRecursively] *)

Definition readFileAsync (fs : FileSystem) (filepath : string) : promise string Error :=
  match readFile fs filepath with
  | Err err => Rejected err
  | Ok data => Fulfilled data
  end.

(** [readRecursively(fsPath, ext)].  [sched abs] is the order in which the
    promises of the entries of directory [abs] settle.  With [fuel] levels of
    nesting; a call that needs more is still [Pending]. *)
Fixpoint readRecursively (fuel : nat) (fs : FileSystem) (sched : string -> list nat)
    (fsPath : string) (ext : string) : promise (gmap string string) Error :=
  match fuel with
  | 0 => Pending
  | S fuel' =>
      let abs := Path.resolve (cwd fs) fsPath in
      match stat fs abs with
      | Err statErr => Rejected statErr
      | Ok stats =>
          if isFile stats && includes (Path.extname abs) ext then
            then_ (readFileAsync fs abs)
              (fun cont => Fulfilled {[ abs := cont ]})
              (fun err => Rejected err)
          else if isDirectory stats then
            match readdir fs abs with
            | Err readErr => Rejected readErr
            | Ok files =>
                let paths := map (fun f => Path.join abs f) files in
                then_
                  (promiseAll
                     (map (fun p => readRecursively fuel' fs sched p ext) paths)
                     (sched abs))
                  (fun values => Fulfilled (Object_assign ∅ values))
                  (fun err => Rejected err)
            end
          else Fulfilled ∅
      end
  end.

(** ** The upward walk of [detectGit] *)

(** [ancestor k directory]: [path.dirname] applied [k] times. *)
Definition ancestor (k : nat) (directory : string) : string :=
  Nat.iter k Path.dirname directory.

(** The probe [detectGit] makes for a candidate directory. *)
Definition probe (dir : string) : FsCall := StatCall (dir +:+ "/.git").

(** The probes of the first [n] ancestors, nearest first. *)
Definition probes (directory : string) (n : nat) : list FsCall :=
  map (fun k => probe (ancestor k directory)) (seq 1 n).

Definition has_marker (fs : FileSystem) (dir : string) : bool :=
  match stat fs (dir +:+ "/.git") with Ok _ => true | Err _ => false end.

(** No ancestor below level [d] is ["/"]. *)
Definition below_root (directory : string) (d : nat) : bool :=
  forallb (fun k => negb (String.eqb (ancestor k directory) "/")) (seq 0 d).

(** No ancestor at levels [1 .. d-1] holds the marker. *)
Definition no_marker_below (fs : FileSystem) (directory : string) (d : nat) : bool :=
  forallb (fun k => negb (has_marker fs (ancestor k directory))) (seq 1 (d - 1)).

Definition LF : string := String (ascii_of_nat 10) EmptyString.

(** ** File systems given by a table, for examples *)

Module Table.

Inductive Node : Type :=
| FileNode (content : string)
| DirNode (entries : list string)
| SpecialNode (t : FileType)
| NoAccess              (** [stat] fails with EACCES *)
| UnreadableFile        (** a regular file whose read fails with EIO *)
| UnreadableDir.        (** a directory whose listing fails with EACCES *)

Fixpoint lookup_node (tbl : list (string * Node)) (p : string) : option Node :=
  match tbl with
  | [] => None
  | (q, n) :: tbl' => if String.eqb q p then Some n else lookup_node tbl' p
  end.

Definition ENOENT : Error := SystemError "ENOENT".
Definition EACCES : Error := SystemError "EACCES".
Definition EIO : Error := SystemError "EIO".
Definition EISDIR : Error := SystemError "EISDIR".
Definition ENOTDIR : Error := SystemError "ENOTDIR".
Definition EINVAL : Error := SystemError "EINVAL".

(** Paths are resolved against [wd] before the table is consulted. *)
Definition fileSystem (wd : string) (tbl : list (string * Node)) : FileSystem := {|
  stat p :=
    match lookup_node tbl (Path.resolve wd p) with
    | None => Err ENOENT
    | Some NoAccess => Err EACCES
    | Some (FileNode _) | Some UnreadableFile => Ok {| st_type := RegularFile |}
    | Some (DirNode _) | Some UnreadableDir => Ok {| st_type := Directory |}
    | Some (SpecialNode t) => Ok {| st_type := t |}
    end;
  readFile p :=
    match lookup_node tbl (Path.resolve wd p) with
    | None => Err ENOENT
    | Some NoAccess => Err EACCES
    | Some (FileNode content) => Ok content
    | Some UnreadableFile => Err EIO
    | Some (DirNode _) | Some UnreadableDir => Err EISDIR
    | Some (SpecialNode _) => Err EINVAL
    end;
  readdir p :=
    match lookup_node tbl (Path.resolve wd p) with
    | None => Err ENOENT
    | Some NoAccess | Some UnreadableDir => Err EACCES
    | Some (DirNode entries) => Ok entries
    | Some _ => Err ENOTDIR
    end;
  cwd := wd
|}.

(** A repository at [/w/repo], checked out on branch [main]. *)
Definition repo : FileSystem :=
  fileSystem "/w" [
    ("/", DirNode ["w"]);
    ("/w", DirNode ["repo"]);
    ("/w/repo", DirNode [".git"; "src"]);
    ("/w/repo/.git", DirNode ["HEAD"; "refs"]);
    ("/w/repo/.git/HEAD", FileNode ("ref: refs/heads/main" +:+ LF));
    ("/w/repo/.git/refs", DirNode ["heads"]);
    ("/w/repo/.git/refs/heads", DirNode ["main"]);
    ("/w/repo/.git/refs/heads/main", FileNode ("abc123" +:+ LF));
    ("/w/repo/src", DirNode ["a.txt"; "sub"]);
    ("/w/repo/src/a.txt", FileNode "x");
    ("/w/repo/src/sub", DirNode ["b.txt"; "c.log"]);
    ("/w/repo/src/sub/b.txt", FileNode "y");
    ("/w/repo/src/sub/c.log", FileNode "z")
  ].

(** [/w/repo/.git] exists but holds no [HEAD]; [/w/.git] cannot be examined. *)
Definition broken : FileSystem :=
  fileSystem "/w" [
    ("/", DirNode ["w"]);
    ("/w", DirNode ["repo"; ".git"]);
    ("/w/.git", NoAccess);
    ("/w/repo", DirNode [".git"; "src"; "dev"; "locked"; "bad.txt"]);
    ("/w/repo/.git", DirNode []);
    ("/w/repo/src", DirNode ["a.txt"]);
    ("/w/repo/src/a.txt", FileNode "x");
    ("/w/repo/dev", SpecialNode CharacterDevice);
    ("/w/repo/locked", UnreadableDir);
    ("/w/repo/bad.txt", UnreadableFile)
  ].

(** A repository just initialised: [HEAD] names a branch that has no ref yet. *)
Definition unborn : FileSystem :=
  fileSystem "/w" [
    ("/", DirNode ["w"]);
    ("/w", DirNode ["repo"]);
    ("/w/repo", DirNode [".git"]);
    ("/w/repo/.git", DirNode ["HEAD"; "refs"]);
    ("/w/repo/.git/HEAD", FileNode ("ref: refs/heads/master" +:+ LF));
    ("/w/repo/.git/refs", DirNode ["heads"]);
    ("/w/repo/.git/refs/heads", DirNode [])
  ].

(** A checkout at [/w/repo] whose [.git] is empty, inside a repository at [/w]. *)
Definition nested : FileSystem :=
  fileSystem "/w" [
    ("/", DirNode ["w"]);
    ("/w", DirNode [".git"; "repo"]);
    ("/w/.git", DirNode ["HEAD"; "refs"]);
    ("/w/.git/HEAD", FileNode ("ref: refs/heads/main" +:+ LF));
    ("/w/.git/refs", DirNode ["heads"]);
    ("/w/.git/refs/heads", DirNode ["main"]);
    ("/w/.git/refs/heads/main", FileNode ("abc123" +:+ LF));
    ("/w/repo", DirNode [".git"; "src"]);
    ("/w/repo/.git", DirNode []);
    ("/w/repo/src", DirNode [])
  ].


(** Every directory settles its entries in listing order. *)
Definition in_order (fs : FileSystem) (abs : string) : list nat :=
  match readdir fs abs with
  | Ok files => seq 0 (length files)
  | Err _ => []
  end.

(** Every directory settles its entries in reverse listing order. *)
Definition reversed (fs : FileSystem) (abs : string) : list nat :=
  rev (in_order fs abs).

End Table.

(** ** Normalized absolute paths *)

Fixpoint slash_free (s : string) : bool :=
  match s with
  | EmptyString => true
  | String c s' => negb (Ascii.eqb c "/") && slash_free s'
  end.

(** A name that can stand between two separators of a normalized path. *)
Definition proper_segment (seg : string) : bool :=
  slash_free seg && negb (String.eqb seg "") && negb (String.eqb seg ".")
  && negb (String.eqb seg "..").

Abbreviation proper := (fun seg : string => proper_segment seg = true).

(** The absolute path with the given segments. *)
Definition abs_of (segs : list string) : string := "/" +:+ Path.join_slash segs.

(** ["/"], or ["/"] followed by proper segments separated by single ["/"]. *)
Definition normalized_absolute (p : string) : bool :=
  match p with
  | String c tl =>
      Ascii.eqb c "/"
      && (String.eqb tl "" || forallb proper_segment (Path.split_slash tl))
  | EmptyString => false
  end.

(** What [fs.readdir] guarantees: distinct entry names, none of them empty,
    ["."], [".."] or containing a separator. *)
Definition proper_listing (fs : FileSystem) : Prop :=
  forall abs files, readdir fs abs = Ok files ->
    NoDup files /\ Forall (fun f => proper_segment f = true) files.

(** A table whose directories list distinct proper names. *)
Definition proper_table (tbl : list (string * Table.Node)) : bool :=
  forallb (fun e => match snd e with
                    | Table.DirNode entries =>
                        bool_decide (NoDup entries) && forallb proper_segment entries
                    | _ => true
                    end) tbl.

(** [leaf_visit fs ext fsPath trail key]: the traversal started at [fsPath]
    goes down the entries [trail] and there reads a matching regular file,
    which it stores under [key]. *)
Inductive leaf_visit (fs : FileSystem) (ext : string)
    : string -> list string -> string -> Prop :=
| leaf_here fsPath stats cont :
    stat fs (Path.resolve (cwd fs) fsPath) = Ok stats ->
    isFile stats && includes (Path.extname (Path.resolve (cwd fs) fsPath)) ext = true ->
    readFile fs (Path.resolve (cwd fs) fsPath) = Ok cont ->
    leaf_visit fs ext fsPath [] (Path.resolve (cwd fs) fsPath)
| leaf_below fsPath stats files f trail key :
    stat fs (Path.resolve (cwd fs) fsPath) = Ok stats ->
    isFile stats && includes (Path.extname (Path.resolve (cwd fs) fsPath)) ext = false ->
    isDirectory stats = true ->
    readdir fs (Path.resolve (cwd fs) fsPath) = Ok files ->
    f ∈ files ->
    leaf_visit fs ext (Path.join (Path.resolve (cwd fs) fsPath) f) trail key ->
    leaf_visit fs ext fsPath (f :: trail) key.

(** The extension filter as the specification words it: a regular file is
    included exactly when its extension ends with the filter. *)
Definition included_iff_suffix (fs : FileSystem) (sched : string -> list nat)
    (fsPath ext : string) : Prop :=
  let abs := Path.resolve (cwd fs) fsPath in
  forall stats cont,
    stat fs abs = Ok stats -> isFile stats = true -> readFile fs abs = Ok cont ->
    (readRecursively 1 fs sched fsPath ext = Fulfilled {[ abs := cont ]}
     <-> endsWith (Path.extname abs) ext = true).

(** A failure met by the traversal that starts at [fsPath]: of the [stat],
    of the read of a matching file, of the listing of a directory, or a
    failure met below one of the entries of a directory. *)
Inductive visit_fails (fs : FileSystem) (ext : string) : string -> Error -> Prop :=
| fails_stat fsPath err :
    stat fs (Path.resolve (cwd fs) fsPath) = Err err ->
    visit_fails fs ext fsPath err
| fails_read fsPath stats err :
    stat fs (Path.resolve (cwd fs) fsPath) = Ok stats ->
    isFile stats && includes (Path.extname (Path.resolve (cwd fs) fsPath)) ext = true ->
    readFile fs (Path.resolve (cwd fs) fsPath) = Err err ->
    visit_fails fs ext fsPath err
| fails_readdir fsPath stats err :
    stat fs (Path.resolve (cwd fs) fsPath) = Ok stats ->
    isFile stats && includes (Path.extname (Path.resolve (cwd fs) fsPath)) ext = false ->
    isDirectory stats = true ->
    readdir fs (Path.resolve (cwd fs) fsPath) = Err err ->
    visit_fails fs ext fsPath err
| fails_entry fsPath stats files f err :
    stat fs (Path.resolve (cwd fs) fsPath) = Ok stats ->
    isFile stats && includes (Path.extname (Path.resolve (cwd fs) fsPath)) ext = false ->
    isDirectory stats = true ->
    readdir fs (Path.resolve (cwd fs) fsPath) = Ok files ->
    f ∈ files ->
    visit_fails fs ext (Path.join (Path.resolve (cwd fs) fsPath) f) err ->
    visit_fails fs ext fsPath err.

(** Every promise of an entry that settles is seen to settle. *)
Definition settles_all (fs : FileSystem) (sched : string -> list nat) : Prop :=
  forall abs files, readdir fs abs = Ok files ->
    forall i, i < length files -> i ∈ sched abs.


(** ** [readAnyFile] and [toCallback] *)

Record FileData := { file : string; data : string }.

(** [readAnyFile(filePaths)]; [schedule] is the order in which the reads
    settle. *)
Definition readAnyFile (fs : FileSystem) (filePaths : list string) (schedule : list nat)
    : promise FileData (list Error) :=
  raceSuccess
    (map (fun fp =>
            then_ (readFileAsync fs fp)
              (fun data => Fulfilled {| file := fp; data := data |})
              (fun err => Rejected err))
         filePaths)
    schedule.

(** [toCallback(promise, callback)]: the arguments [(error, args)] with which
    [callback] is called, [None] when it is never called. *)
Definition toCallback {S E : Type} (p : promise S E) : option (result E S) :=
  match p with
  | Pending => None
  | Fulfilled args => Some (Ok args)
  | Rejected err => Some (Err err)
  end.

(** ** [pick] and [mapValues]

    An object is the map of its own enumerable properties, beside the
    properties it inherits.  Reading a property looks at the own ones first,
    then at the inherited ones, and gives [undefined] when there is none.
    Writing creates or replaces an own property, except for [__proto__],
    which ordinary objects inherit as an accessor: writing it creates no
    property (what it does to the prototype is left out). *)

Definition get_property {V : Type} (undefined : V) (inherited object : gmap string V)
    (k : string) : V :=
  match object !! k with
  | Some v => v
  | None => default undefined (inherited !! k)
  end.

Definition set_property {V : Type} (k : string) (v : V) (object : gmap string V)
    : gmap string V :=
  if String.eqb k "__proto__" then object else <[ k := v ]> object.

(** [pick(object, ...keys)]. *)
Definition pick {V : Type} (undefined : V) (inherited object : gmap string V)
    (keys : list string) : gmap string V :=
  foldl (fun result k => set_property k (get_property undefined inherited object k) result)
        ∅ keys.


(** ** [ensureDirectory]

    [fs.mkdir] changes the file system, so the state of the file system is
    threaded through the calls. *)

Record Disk (St : Type) := {
  disk_stat : St -> string -> result Error Stats;
  disk_mkdir : St -> string -> option Error * St   (** the callback's [err], the new state *)
}.
Arguments disk_stat {St} _ _ _.
Arguments disk_mkdir {St} _ _ _.

Inductive DiskCall : Type :=
| DStat (p : string)
| DMkdir (p : string).

(** [ensureDirectory(dirPath, callback)]: the calls made, the final state and
    what [callback] receives ([Some None] for [callback(null)]); [None] when
    [fuel] nested calls were not enough to reach the callback. *)
Fixpoint ensureDirectory {St : Type} (fuel : nat) (D : Disk St) (dirPath : string) (st : St)
    : list DiskCall * St * option (option Error) :=
  match fuel with
  | 0 => ([], st, None)
  | S fuel' =>
      match disk_stat D st dirPath with
      | Err statErr =>
          let parentDir := Path.dirname dirPath in
          let '(log, st1, outcome) := ensureDirectory fuel' D parentDir st in
          match outcome with
          | None => (DStat dirPath :: log, st1, None)
          | Some (Some ensErr) => (DStat dirPath :: log, st1, Some (Some ensErr))
          | Some None =>
              let '(err, st2) := disk_mkdir D st1 dirPath in
              (DStat dirPath :: log ++ [DMkdir dirPath], st2, Some err)
          end
      | Ok _ => ([DStat dirPath], st, Some None)
      end
  end.

(** [fs.mkdir] on each of [paths] in turn, up to the first that fails. *)
Fixpoint mkdir_each {St : Type} (D : Disk St) (st : St) (paths : list string)
    : list DiskCall * St * option Error :=
  match paths with
  | [] => ([], st, None)
  | p :: rest =>
      let '(err, st1) := disk_mkdir D st p in
      match err with
      | Some e => ([DMkdir p], st1, Some e)
      | None =>
          let '(log, st2, outcome) := mkdir_each D st1 rest in
          (DMkdir p :: log, st2, outcome)
      end
  end.

(** [dirPath] and its first [n] ancestors, nearest first. *)
Definition lineage (dirPath : string) (n : nat) : list string :=
  map (fun k => ancestor k dirPath) (seq 0 n).

Definition exists_on {St : Type} (D : Disk St) (st : St) (p : string) : bool :=
  match disk_stat D st p with Ok _ => true | Err _ => false end.

(** What [fs.mkdir] guarantees when it reports no error: the directory is
    there afterwards, and so is everything that was there before. *)
Definition mkdir_creates {St : Type} (D : Disk St) : Prop :=
  forall st p st', disk_mkdir D st p = (None, st') ->
    exists_on D st' p = true /\
    forall q, exists_on D st q = true -> exists_on D st' q = true.

(** A disk that holds directories only, named by the paths as given. *)
Definition directories : Disk (gset string) := {|
  disk_stat st p :=
    if bool_decide (p ∈ st) then Ok {| st_type := Directory |} else Err Table.ENOENT;
  disk_mkdir st p :=
    if bool_decide (p ∈ st) then (Some (SystemError "EEXIST"), st)
    else if bool_decide (Path.dirname p ∈ st) then (None, {[ p ]} ∪ st)
    else (Some Table.ENOENT, st)
|}.

(** A repository whose [HEAD] was truncated to nothing. *)
Definition truncated_head : FileSystem :=
  Table.fileSystem "/w" [
    ("/", Table.DirNode ["w"]);
    ("/w", Table.DirNode ["repo"]);
    ("/w/repo", Table.DirNode [".git"]);
    ("/w/repo/.git", Table.DirNode ["HEAD"; "refs"]);
    ("/w/repo/.git/HEAD", Table.FileNode "");
    ("/w/repo/.git/refs", Table.DirNode ["heads"]);
    ("/w/repo/.git/refs/heads", Table.DirNode ["main"]);
    ("/w/repo/.git/refs/heads/main", Table.FileNode ("abc123" +:+ LF))
  ].

(** ** The state of [Promise.all] *)

(** Number of slots of the values array not written yet. *)
Fixpoint unwritten {A : Type} (values : list (option A)) : nat :=
  match values with
  | [] => 0
  | None :: vs => S (unwritten vs)
  | Some _ :: vs => unwritten vs
  end.

(** What holds of the values array and the counter between two reactions. *)
Record all_inv {A E : Type} (ps : list (promise A E)) (values : list (option A))
    (remaining : nat) : Prop := {
  inv_length : length values = length ps;
  inv_remaining : remaining = unwritten values;
  inv_written : forall j a, values !! j = Some (Some a) -> ps !! j = Some (Fulfilled a)
}.

(** * Properties *)

(** ** [Promise.all] *)

Section PromiseAll.
Context {A E : Type}.
Implicit Types (ps : list (promise A E)) (values : list (option A)).

Lemma unwritten_replicate n : unwritten (replicate n (@None A)) = n.
Proof. induction n; simpl; congruence. Qed.

Lemma all_inv_init ps : all_inv ps (replicate (length ps) None) (length ps).
Proof.
  split.
  - apply length_replicate.
  - symmetry; apply unwritten_replicate.
  - intros j a Hj. apply lookup_replicate in Hj as [? _]. discriminate.
Qed.

Lemma unwritten_insert values j a :
  values !! j = Some None ->
  unwritten values = S (unwritten (<[j := Some a]> values)).
Proof.
  revert j. induction values as [|o vs IH]; intros [|j] Hj; simpl in *; try discriminate.
  - injection Hj as ->. reflexivity.
  - destruct o; simpl; rewrite (IH j Hj); reflexivity.
Qed.

Lemma unwritten_pos values j : values !! j = Some None -> 0 < unwritten values.
Proof.
  revert j. induction values as [|o vs IH]; intros [|j] Hj; simpl in *; try discriminate.
  - injection Hj as ->. lia.
  - destruct o; [eauto | lia].
Qed.


Lemma all_inv_step ps values remaining j a :
  all_inv ps values remaining ->
  ps !! j = Some (Fulfilled a) ->
  values !! j = Some None ->
  all_inv ps (<[j := Some a]> values) (remaining - 1).
Proof.
  intros [Hlen Hrem Hw] Hp Hv. split.
  - rewrite length_insert. exact Hlen.
  - rewrite Hrem, (unwritten_insert values j a Hv). lia.
  - intros k b Hk. destruct (decide (j = k)) as [<-|Hne].
    + rewrite list_lookup_insert_eq in Hk by (eapply lookup_lt_Some; eauto).
      congruence.
    + rewrite list_lookup_insert_ne in Hk by done. eauto.
Qed.

(** A slot whose promise is not fulfilled is never written. *)
Lemma all_inv_unwritten ps values remaining i :
  all_inv ps values remaining ->
  i < length ps ->
  (forall a, ps !! i <> Some (Fulfilled a)) ->
  values !! i = Some None.
Proof.
  intros [Hlen _ Hw] Hi Hnf.
  destruct (lookup_lt_is_Some_2 values i) as [[a|] Hv]; [lia | | exact Hv].
  exfalso. eapply Hnf, Hw, Hv.
Qed.

(** The first rejection, in completion order, decides [Promise.all]. *)
Lemma all_run_first_rejection ps i v post pre : forall values remaining,
  all_inv ps values remaining ->
  ps !! i = Some (Rejected v) ->
  (forall j e, j ∈ pre -> ps !! j <> Some (Rejected e)) ->
  all_run ps values remaining (pre ++ i :: post) = Rejected v.
Proof.
  induction pre as [|j pre IH]; intros values remaining Hinv Hi Hpre; simpl.
  - rewrite Hi. reflexivity.
  - assert (Hrest : forall k e, k ∈ pre -> ps !! k <> Some (Rejected e)).
    { intros k e Hk. apply Hpre. apply list_elem_of_further. exact Hk. }
    destruct (ps !! j) as [[|a|e]|] eqn:Hj; try (apply IH; assumption).
    + destruct (values !! j) as [[b|]|] eqn:Hv; try (apply IH; assumption).
      assert (Hiv : values !! i = Some None).
      { eapply all_inv_unwritten; eauto.
        - eapply lookup_lt_Some; eauto.
        - intros b. rewrite Hi. discriminate. }
      assert (Hne : j <> i) by (intros ->; congruence).
      pose proof (all_inv_step _ _ _ _ _ Hinv Hj Hv) as Hinv'.
      assert (Hpos : 0 < remaining - 1).
      { rewrite (inv_remaining _ _ _ Hinv').
        apply (unwritten_pos _ i). rewrite list_lookup_insert_ne by done. exact Hiv. }
      destruct (Nat.eqb_spec (remaining - 1) 0) as [Hz|_]; [lia|].
      apply IH; assumption.
    + exfalso. exact (Hpre j e (list_elem_of_here _ _) Hj).
Qed.



Lemma promiseAll_first_rejection ps pre i post v :
  ps !! i = Some (Rejected v) ->
  (forall j e, j ∈ pre -> ps !! j <> Some (Rejected e)) ->
  promiseAll ps (pre ++ i :: post) = Rejected v.
Proof.
  intros Hi Hpre. unfold promiseAll.
  destruct (Nat.eqb_spec (length ps) 0) as [Hz|_].
  - apply lookup_lt_Some in Hi. lia.
  - apply all_run_first_rejection; auto using all_inv_init.
Qed.


(** A rejection of [Promise.all] is the rejection of one of its inputs. *)
Lemma all_run_rejected_inv ps schedule e : forall values remaining,
  all_run ps values remaining schedule = Rejected e ->
  exists j, j ∈ schedule /\ ps !! j = Some (Rejected e).
Proof.
  induction schedule as [|i rest IH]; intros values remaining Hrun; simpl in Hrun.
  - discriminate.
  - assert (Hrec : forall vs r, all_run ps vs r rest = Rejected e ->
                     exists j, j ∈ i :: rest /\ ps !! j = Some (Rejected e)).
    { intros vs r Hr. destruct (IH _ _ Hr) as (j & Hj & Hp).
      exists j. split; [apply list_elem_of_further; exact Hj | exact Hp]. }
    destruct (ps !! i) as [[|a|e']|] eqn:Hp; eauto.
    + destruct (values !! i) as [[b|]|]; eauto.
      destruct (Nat.eqb (remaining - 1) 0); [discriminate | eauto].
    + injection Hrun as ->. exists i. split; [apply list_elem_of_here | exact Hp].
Qed.

Lemma promiseAll_rejected_inv ps schedule e :
  promiseAll ps schedule = Rejected e ->
  exists j, j ∈ schedule /\ ps !! j = Some (Rejected e).
Proof.
  unfold promiseAll. destruct (Nat.eqb (length ps) 0); [discriminate|].
  apply all_run_rejected_inv.
Qed.

(** A schedule in which a rejection settles splits at its first rejection. *)
Lemma first_rejection_split ps schedule :
  (exists i e, i ∈ schedule /\ ps !! i = Some (Rejected e)) ->
  exists pre j post e',
    schedule = pre ++ j :: post /\ ps !! j = Some (Rejected e') /\
    forall k e'', k ∈ pre -> ps !! k <> Some (Rejected e'').
Proof.
  induction schedule as [|k rest IH]; intros (i & e & Hin & Hi).
  - inversion Hin.
  - destruct (ps !! k) as [[|a|e']|] eqn:Hk.
    3:{ exists [], k, rest, e'. split; [reflexivity|]. split; [exact Hk|].
        intros k' e'' Hk'. inversion Hk'. }
    all: apply elem_of_cons in Hin as [->|Hin]; [congruence|];
      destruct IH as (pre & j & post & e' & -> & Hj & Hpre); [eauto|];
      exists (k :: pre), j, post, e'; split; [reflexivity|]; split; [exact Hj|];
      intros k' e'' Hk'; apply elem_of_cons in Hk' as [->|Hk']; [congruence|eauto].
Qed.

(** As soon as one input rejects, [Promise.all] rejects, with the
    rejection of an input. *)
Lemma promiseAll_some_rejection ps schedule :
  (exists i e, i ∈ schedule /\ ps !! i = Some (Rejected e)) ->
  exists j e', ps !! j = Some (Rejected e') /\ promiseAll ps schedule = Rejected e'.
Proof.
  intros H. destruct (first_rejection_split _ _ H) as (pre & j & post & e' & -> & Hj & Hpre).
  exists j, e'. split; [exact Hj|]. apply promiseAll_first_rejection; assumption.
Qed.

Lemma collected_Forall2 values : forall ps,
  unwritten values = 0 ->
  length values = length ps ->
  (forall j a, values !! j = Some (Some a) -> ps !! j = Some (Fulfilled a)) ->
  Forall2 (fun p x => p = Fulfilled x) ps (collected values).
Proof.
  unfold collected.
  induction values as [|[a|] vs IH]; intros [|p ps] Hu Hlen Hw; simpl in *;
    try discriminate; [constructor|].
  constructor.
  - specialize (Hw 0 a eq_refl). simpl in Hw. congruence.
  - apply IH; [exact Hu | lia |]. intros j b Hj. exact (Hw (S j) b Hj).
Qed.

(** A fulfilment of [Promise.all] carries the values of all its inputs, in
    input order. *)
Lemma all_run_fulfilled_inv ps schedule xs : forall values remaining,
  all_inv ps values remaining ->
  all_run ps values remaining schedule = Fulfilled xs ->
  Forall2 (fun p x => p = Fulfilled x) ps xs.
Proof.
  induction schedule as [|i rest IH]; intros values remaining Hinv Hrun; simpl in Hrun.
  - discriminate.
  - destruct (ps !! i) as [[|a|e]|] eqn:Hp; eauto; [|discriminate].
    destruct (values !! i) as [[b|]|] eqn:Hv; eauto.
    pose proof (all_inv_step _ _ _ _ _ Hinv Hp Hv) as Hinv'.
    destruct (Nat.eqb_spec (remaining - 1) 0) as [Hz|_]; [|eauto].
    injection Hrun as <-. apply collected_Forall2.
    + rewrite <- (inv_remaining _ _ _ Hinv'). exact Hz.
    + exact (inv_length _ _ _ Hinv').
    + exact (inv_written _ _ _ Hinv').
Qed.

Lemma promiseAll_fulfilled_inv ps schedule xs :
  promiseAll ps schedule = Fulfilled xs ->
  Forall2 (fun p x => p = Fulfilled x) ps xs.
Proof.
  unfold promiseAll. destruct (Nat.eqb_spec (length ps) 0) as [Hz|_].
  - intros [= <-]. destruct ps; [constructor | discriminate].
  - apply all_run_fulfilled_inv, all_inv_init.
Qed.
End PromiseAll.

(** ** [raceSuccess] *)



(** Whenever a success settles, the schedule splits at its first success. *)
Lemma schedule_first_success {S E : Type} (promises : list (promise S E)) schedule :
  (exists i v, i ∈ schedule /\ promises !! i = Some (Fulfilled v)) ->
  exists pre i post v,
    schedule = pre ++ i :: post /\ promises !! i = Some (Fulfilled v) /\
    forall j w, j ∈ pre -> promises !! j <> Some (Fulfilled w).
Proof.
  induction schedule as [|k rest IH]; intros (i & v & Hin & Hi).
  - inversion Hin.
  - destruct (promises !! k) as [[|w|e]|] eqn:Hk.
    2:{ exists [], k, rest, w. split; [reflexivity|]. split; [exact Hk|].
        intros j w' Hj. inversion Hj. }
    all: apply elem_of_cons in Hin as [->|Hin]; [congruence|];
      destruct IH as (pre & j & post & w & -> & Hj & Hpre); [eauto|];
      exists (k :: pre), j, post, w; split; [reflexivity|]; split; [exact Hj|];
      intros k' w' Hk'; apply elem_of_cons in Hk' as [->|Hk']; [congruence|eauto].
Qed.



Lemma raceSuccess_no_attempts {S E : Type} (schedule : list nat) :
  raceSuccess (S := S) (E := E) [] schedule = Rejected [].
Proof. reflexivity. Qed.

Example raceSuccess_ex1 :
  raceSuccess [Rejected "A"; Fulfilled 1; Rejected "B"] [0; 2; 1] = Fulfilled 1.
Proof. reflexivity. Qed.

(** With two successes the one that settles first wins, not the one that
    comes first in the input. *)
Example raceSuccess_ex2 :
  raceSuccess [Fulfilled 1; Fulfilled 2; Rejected "B"] [2; 1; 0] = Fulfilled 2.
Proof. reflexivity. Qed.

(** An attempt that never settles does not prevent a success. *)
Example raceSuccess_ex3 :
  raceSuccess (E := string) [Pending; Fulfilled 2] [1] = Fulfilled 2.
Proof. reflexivity. Qed.

(** ** Strings *)

Lemma string_app_cons (c : ascii) (s t : string) : String c s +:+ t = String c (s +:+ t).
Proof. reflexivity. Qed.

Lemma string_app_nil_l (t : string) : "" +:+ t = t.
Proof. reflexivity. Qed.

Lemma string_length_app (s t : string) :
  String.length (s +:+ t) = String.length s + String.length t.
Proof. induction s as [|c s IH]; [reflexivity|]. rewrite string_app_cons. simpl. congruence. Qed.

Lemma substring_skip (pre s : string) (n : nat) :
  substring (String.length pre) n (pre +:+ s) = substring 0 n s.
Proof. induction pre as [|c pre IH]; [reflexivity|]. rewrite string_app_cons. simpl. exact IH. Qed.

Lemma substring_take (s t : string) :
  substring 0 (String.length s) (s +:+ t) = s.
Proof.
  induction s as [|c s IH].
  - destruct t; reflexivity.
  - rewrite string_app_cons. simpl. congruence.
Qed.

(** [slice(n, -1)] removes a prefix of [n] characters and the last character. *)
Lemma slice_strip (pre mid : string) (c : ascii) :
  slice (pre +:+ mid +:+ String c "") (Z.of_nat (String.length pre)) (-1) = mid.
Proof.
  unfold slice. rewrite !string_length_app. simpl String.length.
  set (a := String.length pre). set (b := String.length mid).
  destruct (Z.ltb_spec (Z.of_nat a) 0) as [Hneg|_]; [lia|].
  replace (-1 <? 0)%Z with true by reflexivity.
  replace (Z.to_nat (Z.min (Z.of_nat a) (Z.of_nat (a + (b + 1))))) with a by lia.
  replace (Z.to_nat _) with b by lia.
  subst a b. rewrite substring_skip. apply substring_take.
Qed.

(** ** [readGitMeta] *)

(** C5: [readGitMeta] reads [.git/HEAD], takes as branch what is left of its
    content without the first 16 characters and the last one (for
    ["ref: refs/heads/<branch>\n"], the branch), reads
    [.git/refs/heads/<branch>] and returns the root, the branch and the whole
    content of that file; a failed read is passed on as it is, and each file
    is read once. *)
Theorem readGitMeta_reads_head_then_ref (fs : FileSystem) (dir : string) :
  let headPath := Path.join dir ".git/HEAD" in
  let refPath := fun b => Path.join dir (".git/refs/heads/" +:+ b) in
  (forall pre b last content,
      String.length pre = 16 ->
      readFile fs headPath = Ok (pre +:+ b +:+ String last "") ->
      readFile fs (refPath b) = Ok content ->
      readGitMeta dir fs =
        ([ReadFileCall headPath; ReadFileCall (refPath b)],
         Ok {| root := dir; branch := b; head := content |})) /\
  (forall branchErr,
      readFile fs headPath = Err branchErr ->
      readGitMeta dir fs = ([ReadFileCall headPath], Err branchErr)) /\
  (forall branchData headErr,
      readFile fs headPath = Ok branchData ->
      readFile fs (refPath (slice branchData 16 (-1))) = Err headErr ->
      readGitMeta dir fs =
        ([ReadFileCall headPath; ReadFileCall (refPath (slice branchData 16 (-1)))],
         Err headErr)).
Proof.
  intros headPath refPath. unfold readGitMeta, bind, fs_readFile, ret.
  fold headPath. split; [|split].
  - intros pre b last content Hlen Hhead Href.
    assert (Hb : slice (pre +:+ b +:+ String last "") 16 (-1) = b).
    { pose proof (slice_strip pre b last) as Hs. rewrite Hlen in Hs. exact Hs. }
    rewrite Hhead, Hb. fold (refPath b). rewrite Href. reflexivity.
  - intros e Hhead. rewrite Hhead. reflexivity.
  - intros data e Hhead Href. rewrite Hhead.
    fold (refPath (slice data 16 (-1))). rewrite Href. reflexivity.
Qed.

Lemma readGitMeta_reads_head_then_ref_witness :
  readGitMeta "/w/repo" Table.repo =
    ([ReadFileCall "/w/repo/.git/HEAD"; ReadFileCall "/w/repo/.git/refs/heads/main"],
     Ok {| root := "/w/repo"; branch := "main"; head := "abc123" +:+ LF |}) /\
  readGitMeta "/w/repo" Table.broken =
    ([ReadFileCall "/w/repo/.git/HEAD"], Err Table.ENOENT) /\
  readGitMeta "/w/repo" Table.unborn =
    ([ReadFileCall "/w/repo/.git/HEAD"; ReadFileCall "/w/repo/.git/refs/heads/master"],
     Err Table.ENOENT).
Proof.
  split; [|split].
  - apply (proj1 (readGitMeta_reads_head_then_ref Table.repo "/w/repo")
             "ref: refs/heads/" "main" (ascii_of_nat 10) ("abc123" +:+ LF));
      reflexivity.
  - apply (proj1 (proj2 (readGitMeta_reads_head_then_ref Table.broken "/w/repo"))
             Table.ENOENT); reflexivity.
  - apply (proj2 (proj2 (readGitMeta_reads_head_then_ref Table.unborn "/w/repo"))
             ("ref: refs/heads/master" +:+ LF) Table.ENOENT); reflexivity.
Defined.

(** [readGitMeta] only reads files and names the directory it was given. *)
Lemma readGitMeta_log (fs : FileSystem) (dir : string) :
  Forall (fun c => exists p, c = ReadFileCall p) (fst (readGitMeta dir fs)).
Proof.
  unfold readGitMeta, bind, fs_readFile, ret.
  destruct (readFile fs _) as [data|e]; simpl.
  - destruct (readFile fs _); simpl; repeat constructor; eauto.
  - repeat constructor; eauto.
Qed.


(** ** [detectGit] *)

(** One call of [detectGit], unfolded. *)
Lemma detectGit_from_unfold (fs : FileSystem) fuel directory iter :
  detectGit_from (S fuel) directory iter fs =
    if String.eqb directory "/" || Nat.eqb iter 10 then ([], Some (Err no_git_root))
    else
      let dir := Path.dirname directory in
      match stat fs (dir +:+ "/.git") with
      | Err _ =>
          let r := detectGit_from fuel dir (iter + 1) fs in (probe dir :: fst r, snd r)
      | Ok _ =>
          let r := readGitMeta dir fs in (probe dir :: fst r, Some (snd r))
      end.
Proof.
  simpl. destruct (_ || _); [reflexivity|].
  unfold bind at 1, fs_stat at 1. unfold probe.
  destruct (stat fs _) as [st|e]; simpl.
  - unfold bind, ret. destruct (readGitMeta _ fs). simpl. rewrite app_nil_r. reflexivity.
  - destruct (detectGit_from _ _ _ fs). reflexivity.
Qed.

Lemma ancestor_succ_r k directory :
  ancestor (S k) directory = ancestor k (Path.dirname directory).
Proof. unfold ancestor. apply Nat.iter_succ_r. Qed.

Lemma probes_succ directory n :
  probes directory (S n) = probe (Path.dirname directory) :: probes (Path.dirname directory) n.
Proof.
  unfold probes. simpl. f_equal.
  rewrite <- seq_shift, map_map.
  apply map_ext. intros k. rewrite ancestor_succ_r. reflexivity.
Qed.

(** While the marker is absent and neither bound is hit, the walk climbs. *)
Lemma detectGit_from_climb (fs : FileSystem) n : forall fuel directory iter,
  iter + n <= 10 ->
  (forall k, k < n -> ancestor k directory <> "/") ->
  (forall k, 1 <= k <= n -> has_marker fs (ancestor k directory) = false) ->
  detectGit_from (n + fuel) directory iter fs =
    (probes directory n ++ fst (detectGit_from fuel (ancestor n directory) (iter + n) fs),
     snd (detectGit_from fuel (ancestor n directory) (iter + n) fs)).
Proof.
  induction n as [|n IH]; intros fuel directory iter Hiter Hroot Hmark.
  - simpl. rewrite Nat.add_0_r. destruct (detectGit_from _ _ _ fs). reflexivity.
  - change (S n + fuel) with (S (n + fuel)). rewrite detectGit_from_unfold.
    destruct (String.eqb_spec directory "/") as [Heq|_].
    { exfalso. apply (Hroot 0); [lia | exact Heq]. }
    destruct (Nat.eqb_spec iter 10) as [?|_]; [lia|]. simpl orb. cbv iota zeta.
    pose proof (Hmark 1 ltac:(lia)) as H1. unfold has_marker in H1.
    change (ancestor 1 directory) with (Path.dirname directory) in H1.
    destruct (stat fs _) as [st|e]; [discriminate|].
    rewrite (IH fuel (Path.dirname directory) (iter + 1)).
    + rewrite probes_succ, <- ancestor_succ_r.
      replace (iter + 1 + n) with (iter + S n) by lia. reflexivity.
    + lia.
    + intros k Hk. rewrite <- ancestor_succ_r. apply Hroot. lia.
    + intros k Hk. rewrite <- ancestor_succ_r. apply Hmark. lia.
Qed.

Lemma below_root_spec directory d :
  below_root directory d = true -> forall k, k < d -> ancestor k directory <> "/".
Proof.
  unfold below_root. rewrite forallb_forall. intros H k Hk Heq.
  specialize (H k). rewrite Heq in H. simpl in H.
  assert (false = true); [|discriminate]. apply H. apply in_seq. lia.
Qed.

Lemma no_marker_below_spec fs directory d :
  no_marker_below fs directory d = true ->
  forall k, 1 <= k <= d - 1 -> has_marker fs (ancestor k directory) = false.
Proof.
  unfold no_marker_below. rewrite forallb_forall. intros H k Hk.
  specialize (H k). destruct (has_marker fs _); [|reflexivity].
  assert (false = true); [|discriminate]. apply H. apply in_seq. lia.
Qed.

(** The walk when the marker first shows up [S n] levels up. *)
Lemma detectGit_from_found (fs : FileSystem) n fuel directory iter :
  iter + n < 10 ->
  (forall k, k <= n -> ancestor k directory <> "/") ->
  (forall k, 1 <= k <= n -> has_marker fs (ancestor k directory) = false) ->
  has_marker fs (ancestor (S n) directory) = true ->
  detectGit_from (n + S fuel) directory iter fs =
    (probes directory (S n) ++ fst (readGitMeta (ancestor (S n) directory) fs),
     Some (snd (readGitMeta (ancestor (S n) directory) fs))).
Proof.
  intros Hiter Hroot Hmark Hfound.
  rewrite detectGit_from_climb; [|lia|intros; apply Hroot; lia|exact Hmark].
  rewrite detectGit_from_unfold.
  destruct (String.eqb_spec (ancestor n directory) "/") as [Heq|_].
  { exfalso. apply (Hroot n); [lia | exact Heq]. }
  destruct (Nat.eqb_spec (iter + n) 10) as [?|_]; [lia|]. simpl orb. cbv iota zeta.
  unfold has_marker in Hfound. change (Path.dirname (ancestor n directory))
    with (ancestor (S n) directory).
  destruct (stat fs _) as [st|e]; [|discriminate]. simpl fst. simpl snd.
  f_equal. unfold probes. rewrite seq_S, map_app, <- app_assoc. reflexivity.
Qed.



(** C10: when the first marker found is the one [d] levels up, the outcome of
    [detectGit] is the outcome of [readGitMeta] there, failure included, and
    after the [d] probes only [readGitMeta]'s reads are made. *)
Theorem detectGit_outcome_is_readGitMeta (fs : FileSystem) (directory : string) (d : nat) :
  1 <= d <= 10 ->
  below_root directory d = true ->
  no_marker_below fs directory d = true ->
  has_marker fs (ancestor d directory) = true ->
  detectGit directory fs =
    (probes directory d ++ fst (readGitMeta (ancestor d directory) fs),
     Some (snd (readGitMeta (ancestor d directory) fs))) /\
  forall p, StatCall p ∈ fst (detectGit directory fs) -> StatCall p ∈ probes directory d.
Proof.
  intros Hd Hroot Hbelow Hfound.
  destruct d as [|n]; [lia|].
  assert (Heq : detectGit directory fs =
    (probes directory (S n) ++ fst (readGitMeta (ancestor (S n) directory) fs),
     Some (snd (readGitMeta (ancestor (S n) directory) fs)))).
  { unfold detectGit. replace 11 with (n + S (10 - n)) by lia.
    apply detectGit_from_found.
    - lia.
    - intros k Hk. apply (below_root_spec _ _ Hroot). lia.
    - intros k Hk. apply (no_marker_below_spec _ _ _ Hbelow). lia.
    - exact Hfound. }
  split; [exact Heq|].
  intros p Hp. rewrite Heq in Hp. cbn [fst] in Hp.
  apply elem_of_app in Hp as [Hin|Hin]; [exact Hin|].
  pose proof (readGitMeta_log fs (ancestor (S n) directory)) as Hlog.
  rewrite Forall_forall in Hlog. destruct (Hlog _ Hin) as [q Hq]. discriminate.
Qed.

Lemma detectGit_outcome_is_readGitMeta_witness :
  has_marker Table.nested "/w" = true /\
  snd (readGitMeta "/w" Table.nested) =
    Ok {| root := "/w"; branch := "main"; head := "abc123" +:+ LF |} /\
  detectGit "/w/repo/src/x" Table.nested =
    ([StatCall "/w/repo/src/.git"; StatCall "/w/repo/.git";
      ReadFileCall "/w/repo/.git/HEAD"],
     Some (Err Table.ENOENT)).
Proof.
  split; [reflexivity|]. split; [reflexivity|].
  apply (proj1 (detectGit_outcome_is_readGitMeta Table.nested "/w/repo/src/x" 2
                  ltac:(lia) eq_refl eq_refl eq_refl)).
Defined.




(** [detectGit] always reaches its callback: eleven nested calls suffice. *)
Lemma detectGit_from_total (fs : FileSystem) fuel : forall directory iter,
  iter <= 10 -> 10 - iter < fuel ->
  exists r, snd (detectGit_from fuel directory iter fs) = Some r.
Proof.
  induction fuel as [|fuel IH]; intros directory iter Hiter Hfuel; [lia|].
  rewrite detectGit_from_unfold.
  destruct (String.eqb directory "/"); [simpl; eauto|].
  destruct (Nat.eqb_spec iter 10) as [->|Hne]; [simpl; eauto|].
  simpl orb. cbv iota zeta.
  destruct (stat fs _); simpl; [eauto|].
  apply IH; lia.
Qed.

(** X22: whatever the start directory and the file system, [detectGit]
    reaches its callback within eleven nested calls. *)
Lemma detectGit_total (fs : FileSystem) directory :
  exists r, snd (detectGit directory fs) = Some r.
Proof. apply detectGit_from_total; lia. Qed.

(** ** [readRecursively]: one visit *)

Lemma prefix_app (t s : string) : String.prefix t s = true <-> exists b, s = t +:+ b.
Proof.
  revert s. induction t as [|c t IH]; intros s.
  - split; [intros _; exists s; reflexivity | intros _; destruct s; reflexivity].
  - destruct s as [|d s]; simpl; [split; [discriminate | intros [b Hb]; discriminate]|].
    destruct (Ascii.ascii_dec c d) as [->|Hne].
    + rewrite IH. split; intros [b Hb]; exists b.
      * rewrite string_app_cons. congruence.
      * rewrite string_app_cons in Hb. congruence.
    + split; [discriminate|]. intros [b Hb]. rewrite string_app_cons in Hb. congruence.
Qed.

Lemma includes_unfold (s t : string) :
  includes s t =
    if String.prefix t s then true
    else match s with
         | EmptyString => false
         | String _ s' => includes s' t
         end.
Proof. destruct s; reflexivity. Qed.

(** [includes] is containment as a substring. *)
Lemma includes_spec (s t : string) :
  includes s t = true <-> exists a b, s = a +:+ t +:+ b.
Proof.
  induction s as [|c s IH].
  - rewrite includes_unfold. destruct (String.prefix t "") eqn:Hp.
    + apply prefix_app in Hp as [b Hb]. split; [|reflexivity].
      intros _. exists "", b. exact Hb.
    + split; [discriminate|]. intros (a & b & Hab).
      destruct a; [|discriminate]. rewrite string_app_nil_l in Hab.
      assert (String.prefix t "" = true) by (apply prefix_app; eauto). congruence.
  - rewrite includes_unfold. destruct (String.prefix t (String c s)) eqn:Hp.
    + apply prefix_app in Hp as [b Hb]. split; [|reflexivity].
      intros _. exists "", b. exact Hb.
    + rewrite IH. split.
      * intros (a & b & Hab). exists (String c a), b. rewrite string_app_cons. congruence.
      * intros (a & b & Hab). destruct a as [|d a].
        -- rewrite string_app_nil_l in Hab.
           assert (String.prefix t (String c s) = true) by (apply prefix_app; eauto).
           congruence.
        -- rewrite string_app_cons in Hab. injection Hab as _ Hab. eauto.
Qed.

Lemma includes_empty (s : string) : includes s "" = true.
Proof. destruct s; reflexivity. Qed.

(** One call of [readRecursively], unfolded. *)
Lemma readRecursively_unfold fuel fs sched fsPath ext :
  readRecursively (S fuel) fs sched fsPath ext =
    let abs := Path.resolve (cwd fs) fsPath in
    match stat fs abs with
    | Err statErr => Rejected statErr
    | Ok stats =>
        if isFile stats && includes (Path.extname abs) ext then
          match readFile fs abs with
          | Ok cont => Fulfilled {[ abs := cont ]}
          | Err err => Rejected err
          end
        else if isDirectory stats then
          match readdir fs abs with
          | Err readErr => Rejected readErr
          | Ok files =>
              match promiseAll
                      (map (fun f => readRecursively fuel fs sched (Path.join abs f) ext) files)
                      (sched abs) with
              | Pending => Pending
              | Fulfilled values => Fulfilled (Object_assign ∅ values)
              | Rejected err => Rejected err
              end
          end
        else Fulfilled ∅
    end.
Proof.
  simpl. destruct (stat fs _) as [stats|e]; [|reflexivity].
  destruct (isFile stats && _).
  - unfold readFileAsync. destruct (readFile fs _); reflexivity.
  - destruct (isDirectory stats); [|reflexivity].
    destruct (readdir fs _) as [files|e]; [|reflexivity].
    rewrite map_map. destruct (promiseAll _ _); reflexivity.
Qed.

(** C4, as the code has it: a regular file is included exactly when the
    filter occurs in its extension; the empty filter occurs in every
    extension.  An included file yields the one-entry mapping from its
    absolute path to its content (or the failure of its read), any other
    regular file the empty mapping. *)
Theorem readRecursively_regular_file (fs : FileSystem) (sched : string -> list nat)
    (fsPath ext : string) (fuel : nat) (stats : Stats) :
  let abs := Path.resolve (cwd fs) fsPath in
  stat fs abs = Ok stats ->
  isFile stats = true ->
  readRecursively (S fuel) fs sched fsPath ext =
    (if includes (Path.extname abs) ext then
       match readFile fs abs with
       | Ok cont => Fulfilled {[ abs := cont ]}
       | Err err => Rejected err
       end
     else Fulfilled ∅) /\
  (includes (Path.extname abs) ext = true <->
   exists a b, Path.extname abs = a +:+ ext +:+ b) /\
  includes (Path.extname abs) "" = true.
Proof.
  intros abs Hstat Hfile. split; [|split].
  - rewrite readRecursively_unfold. fold abs. cbv zeta. rewrite Hstat, Hfile. simpl andb.
    destruct (includes _ ext); [reflexivity|].
    destruct stats as [[]]; try discriminate. reflexivity.
  - apply includes_spec.
  - apply includes_empty.
Qed.

Lemma readRecursively_regular_file_witness :
  readRecursively 1 Table.repo (Table.in_order Table.repo) "/w/repo/src/a.txt" "tx"
  = Fulfilled {[ "/w/repo/src/a.txt" := "x" ]} /\
  readRecursively 1 Table.repo (Table.in_order Table.repo) "/w/repo/src/a.txt" "TXT"
  = Fulfilled ∅.
Proof.
  split.
  - apply (proj1 (readRecursively_regular_file Table.repo (Table.in_order Table.repo)
                    "/w/repo/src/a.txt" "tx" 0 {| st_type := RegularFile |}
                    eq_refl eq_refl)).
  - apply (proj1 (readRecursively_regular_file Table.repo (Table.in_order Table.repo)
                    "/w/repo/src/a.txt" "TXT" 0 {| st_type := RegularFile |}
                    eq_refl eq_refl)).
Defined.

(** The filter ["tx"] is no suffix of [".txt"], nor of the path, yet
    [a.txt] is included. *)
Lemma included_iff_suffix_fails :
  ~ included_iff_suffix Table.repo (Table.in_order Table.repo) "/w/repo/src/a.txt" "tx".
Proof.
  intros H.
  specialize (H {| st_type := RegularFile |} "x" eq_refl eq_refl eq_refl).
  destruct H as [H _]. specialize (H eq_refl). vm_compute in H. discriminate.
Qed.

(** C8: a path whose [stat] succeeds and which is neither a regular file nor
    a directory yields the empty mapping. *)
Theorem readRecursively_other_is_empty (fs : FileSystem) (sched : string -> list nat)
    (fsPath ext : string) (fuel : nat) (stats : Stats) :
  stat fs (Path.resolve (cwd fs) fsPath) = Ok stats ->
  isFile stats = false ->
  isDirectory stats = false ->
  readRecursively (S fuel) fs sched fsPath ext = Fulfilled ∅.
Proof.
  intros Hstat Hfile Hdir. rewrite readRecursively_unfold. cbv zeta.
  rewrite Hstat, Hfile, Hdir. reflexivity.
Qed.

Lemma readRecursively_other_is_empty_witness :
  readRecursively 1 Table.broken (Table.in_order Table.broken) "repo/dev" "" = Fulfilled ∅.
Proof.
  apply (readRecursively_other_is_empty Table.broken (Table.in_order Table.broken)
           "repo/dev" "" 0 {| st_type := CharacterDevice |}); reflexivity.
Defined.

(** ** [readRecursively]: failures *)

(** A rejection of [readRecursively] is a failure met by the traversal. *)
Lemma readRecursively_rejected_inv fs sched ext fuel : forall fsPath err,
  readRecursively fuel fs sched fsPath ext = Rejected err ->
  visit_fails fs ext fsPath err.
Proof.
  induction fuel as [|fuel IH]; intros fsPath err Hrun; [discriminate|].
  rewrite readRecursively_unfold in Hrun. cbv zeta in Hrun.
  destruct (stat fs _) as [stats|statErr] eqn:Hstat.
  2:{ injection Hrun as ->. apply fails_stat. exact Hstat. }
  destruct (isFile stats && _) eqn:Hmatch.
  { destruct (readFile fs _) as [cont|e] eqn:Hread; [discriminate|].
    injection Hrun as ->. eapply fails_read; eassumption. }
  destruct (isDirectory stats) eqn:Hdir; [|discriminate].
  destruct (readdir fs _) as [files|readErr] eqn:Hls.
  2:{ injection Hrun as ->. eapply fails_readdir; eassumption. }
  destruct (promiseAll _ _) as [|values|e] eqn:Hall; try discriminate.
  injection Hrun as ->.
  apply promiseAll_rejected_inv in Hall as (j & _ & Hj).
  rewrite list_lookup_fmap in Hj.
  destruct (files !! j) as [f|] eqn:Hf; [|discriminate].
  injection Hj as Hj.
  eapply fails_entry; try eassumption.
  - eapply list_elem_of_lookup_2. exact Hf.
  - apply IH. exact Hj.
Qed.

(** C6: when [stat], a read or a listing fails anywhere below [fsPath],
    [readRecursively] rejects, with one of the failures met below [fsPath]
    (the first to be seen by [Promise.all]), and yields no mapping. *)
Theorem readRecursively_failure_aborts (fs : FileSystem) (sched : string -> list nat)
    (ext fsPath : string) (err : Error) :
  settles_all fs sched ->
  visit_fails fs ext fsPath err ->
  exists n, forall fuel, n <= fuel ->
    exists err',
      visit_fails fs ext fsPath err' /\
      readRecursively fuel fs sched fsPath ext = Rejected err'.
Proof.
  intros Hsched Hfail.
  induction Hfail as [fsPath err Hstat | fsPath stats err Hstat Hmatch Hread
                     | fsPath stats err Hstat Hmatch Hdir Hls
                     | fsPath stats files f err Hstat Hmatch Hdir Hls Hf Hsub IH].
  - exists 1. intros [|fuel] Hfuel; [lia|]. exists err. split; [apply fails_stat; exact Hstat|].
    rewrite readRecursively_unfold. cbv zeta. rewrite Hstat. reflexivity.
  - exists 1. intros [|fuel] Hfuel; [lia|]. exists err.
    split; [eapply fails_read; eassumption|].
    rewrite readRecursively_unfold. cbv zeta. rewrite Hstat, Hmatch, Hread. reflexivity.
  - exists 1. intros [|fuel] Hfuel; [lia|]. exists err.
    split; [eapply fails_readdir; eassumption|].
    rewrite readRecursively_unfold. cbv zeta. rewrite Hstat, Hmatch, Hdir, Hls. reflexivity.
  - destruct IH as [n IH]. exists (S n). intros [|fuel] Hfuel; [lia|].
    destruct (IH fuel ltac:(lia)) as (errf & _ & Hrunf).
    apply list_elem_of_lookup_1 in Hf as [i Hi].
    rewrite readRecursively_unfold. cbv zeta. rewrite Hstat, Hmatch, Hdir, Hls.
    destruct (promiseAll_some_rejection
                (map (fun f => readRecursively fuel fs sched
                                 (Path.join (Path.resolve (cwd fs) fsPath) f) ext) files)
                (sched (Path.resolve (cwd fs) fsPath))) as (j & err' & Hj & Hall).
    { exists i, errf. split.
      - eapply Hsched; [exact Hls|]. eapply lookup_lt_Some. exact Hi.
      - rewrite list_lookup_fmap, Hi. simpl. congruence. }
    rewrite Hall. exists err'. split; [|reflexivity].
    rewrite list_lookup_fmap in Hj.
    destruct (files !! j) as [fj|] eqn:Hfj; [|discriminate].
    injection Hj as Hj.
    eapply fails_entry; try eassumption.
    + eapply list_elem_of_lookup_2. exact Hfj.
    + eapply readRecursively_rejected_inv. exact Hj.
Qed.

Lemma in_order_settles_all (fs : FileSystem) : settles_all fs (Table.in_order fs).
Proof.
  intros abs files Hls i Hi. unfold Table.in_order. rewrite Hls.
  apply list_elem_of_In, in_seq. lia.
Qed.

Lemma reversed_settles_all (fs : FileSystem) : settles_all fs (Table.reversed fs).
Proof.
  intros abs files Hls i Hi. unfold Table.reversed.
  apply list_elem_of_In. rewrite <- in_rev. apply list_elem_of_In.
  exact (in_order_settles_all fs abs files Hls i Hi).
Qed.

Lemma readRecursively_failure_aborts_witness :
  exists n, forall fuel, n <= fuel ->
    exists err',
      visit_fails Table.broken "" "/w" err' /\
      readRecursively fuel Table.broken (Table.reversed Table.broken) "/w" "" = Rejected err'.
Proof.
  apply (readRecursively_failure_aborts Table.broken (Table.reversed Table.broken)
           "" "/w" Table.EIO).
  - apply reversed_settles_all.
  - apply (fails_entry Table.broken "" "/w" {| st_type := Directory |}
             ["repo"; ".git"] "repo" Table.EIO eq_refl eq_refl eq_refl eq_refl).
    + apply list_elem_of_here.
    + apply (fails_entry Table.broken "" "/w/repo" {| st_type := Directory |}
               [".git"; "src"; "dev"; "locked"; "bad.txt"] "bad.txt" Table.EIO
               eq_refl eq_refl eq_refl eq_refl).
      * do 4 apply list_elem_of_further. apply list_elem_of_here.
      * apply (fails_read Table.broken "" "/w/repo/bad.txt" {| st_type := RegularFile |}
                 Table.EIO eq_refl eq_refl eq_refl).
Defined.

(** Which failure is reported depends on the order of completion. *)
Example readRecursively_first_failure_wins :
  readRecursively 3 Table.broken (Table.in_order Table.broken) "/w/repo" ""
    = Rejected Table.EACCES /\
  readRecursively 3 Table.broken (Table.reversed Table.broken) "/w/repo" ""
    = Rejected Table.EIO.
Proof. split; reflexivity. Qed.

(** ** Paths as lists of segments *)

Lemma proper_segment_inv seg :
  proper_segment seg = true ->
  slash_free seg = true /\ seg <> "" /\ seg <> "." /\ seg <> "..".
Proof.
  unfold proper_segment. rewrite !andb_true_iff, !negb_true_iff, !String.eqb_neq. tauto.
Qed.

Lemma split_slash_cons s : exists seg segs, Path.split_slash s = seg :: segs.
Proof.
  destruct s as [|c s]; simpl; [eauto|].
  destruct (Ascii.eqb c "/"); [eauto|]. destruct (Path.split_slash s); eauto.
Qed.

Lemma split_slash_app a b :
  Path.split_slash (a +:+ "/" +:+ b) = Path.split_slash a ++ Path.split_slash b.
Proof.
  induction a as [|c a IH].
  - reflexivity.
  - rewrite string_app_cons. simpl. rewrite IH.
    destruct (Ascii.eqb c "/"); [reflexivity|].
    destruct (split_slash_cons a) as (seg & segs & ->). reflexivity.
Qed.

Lemma split_slash_free seg : slash_free seg = true -> Path.split_slash seg = [seg].
Proof.
  induction seg as [|c seg IH]; simpl; [reflexivity|].
  rewrite andb_true_iff, negb_true_iff. intros [-> Hfree]. rewrite (IH Hfree). reflexivity.
Qed.

Lemma split_slash_slash_free s : Forall (fun seg => slash_free seg = true) (Path.split_slash s).
Proof.
  induction s as [|c s IH]; simpl.
  - repeat constructor.
  - destruct (Ascii.eqb c "/") eqn:Hc; [constructor; [reflexivity | exact IH]|].
    destruct (Path.split_slash s) as [|seg segs].
    + repeat constructor. simpl. rewrite Hc. reflexivity.
    + inversion IH; subst. constructor; [|assumption]. simpl. rewrite Hc. assumption.
Qed.

Lemma join_slash_cons seg seg' segs :
  Path.join_slash (seg :: seg' :: segs) = seg +:+ "/" +:+ Path.join_slash (seg' :: segs).
Proof. reflexivity. Qed.

Lemma split_join_slash segs :
  segs <> [] ->
  Forall (fun seg => slash_free seg = true) segs ->
  Path.split_slash (Path.join_slash segs) = segs.
Proof.
  induction segs as [|seg [|seg' segs] IH]; intros Hne Hfree; [contradiction| |].
  - inversion Hfree; subst. simpl. apply split_slash_free. assumption.
  - inversion Hfree; subst. rewrite join_slash_cons, split_slash_app.
    rewrite split_slash_free by assumption. rewrite IH by (try discriminate; assumption).
    reflexivity.
Qed.

Lemma join_slash_snoc segs f :
  Path.join_slash (segs ++ [f]) =
    match segs with [] => f | _ => Path.join_slash segs +:+ "/" +:+ f end.
Proof.
  induction segs as [|seg [|seg' segs] IH]; [reflexivity | reflexivity |].
  change ((seg :: seg' :: segs) ++ [f]) with (seg :: seg' :: (segs ++ [f])).
  rewrite !join_slash_cons. change (seg' :: segs ++ [f]) with ((seg' :: segs) ++ [f]).
  rewrite IH. generalize (Path.join_slash (seg' :: segs)). intros x.
  induction seg as [|c seg IHs]; [reflexivity|].
  rewrite !string_app_cons. f_equal. exact IHs.
Qed.

Lemma string_app_empty a b : a +:+ b = "" -> b = "".
Proof. destruct a; [auto | discriminate]. Qed.

Lemma join_slash_snoc_nonempty segs f : f <> "" -> Path.join_slash (segs ++ [f]) <> "".
Proof.
  intros Hf Heq. rewrite join_slash_snoc in Heq. destruct segs; [contradiction|].
  apply string_app_empty, string_app_empty in Heq. contradiction.
Qed.

(** [normalizeString] on segments that are already proper. *)
Lemma push_proper allowAboveRoot stack seg :
  proper_segment seg = true -> Path.push_segment allowAboveRoot stack seg = seg :: stack.
Proof.
  intros (_ & H1 & H2 & H3)%proper_segment_inv. unfold Path.push_segment.
  apply String.eqb_neq in H1, H2, H3. rewrite H1, H2, H3. reflexivity.
Qed.

Lemma foldl_push_proper allowAboveRoot segs : forall stack,
  Forall proper segs ->
  foldl (Path.push_segment allowAboveRoot) stack segs = rev segs ++ stack.
Proof.
  induction segs as [|seg segs IH]; intros stack Hp; [reflexivity|].
  inversion Hp; subst. simpl. rewrite push_proper by assumption.
  rewrite IH by assumption. rewrite <- app_assoc. reflexivity.
Qed.

Lemma Forall_proper_slash_free segs :
  Forall proper segs -> Forall (fun seg => slash_free seg = true) segs.
Proof.
  intros Hp. eapply Forall_impl; [exact Hp|].
  intros seg H. apply proper_segment_inv in H. tauto.
Qed.

Lemma foldl_push_split_join allowAboveRoot segs stack :
  Forall proper segs ->
  foldl (Path.push_segment allowAboveRoot) stack (Path.split_slash (Path.join_slash segs))
  = rev segs ++ stack.
Proof.
  intros Hp. destruct segs as [|seg segs]; [reflexivity|].
  rewrite split_join_slash; [|discriminate|apply Forall_proper_slash_free; exact Hp].
  apply foldl_push_proper. exact Hp.
Qed.

Lemma abs_of_cons segs : abs_of segs = String "/" (Path.join_slash segs).
Proof. reflexivity. Qed.

Lemma split_slash_abs_of segs :
  Path.split_slash (abs_of segs) = "" :: Path.split_slash (Path.join_slash segs).
Proof. reflexivity. Qed.

(** The segments of a normalized absolute path are recovered from it. *)
Lemma segments_abs_of segs :
  Forall proper segs ->
  Path.normalize_segments false (Path.split_slash (abs_of segs)) = segs.
Proof.
  intros Hp. unfold Path.normalize_segments. rewrite split_slash_abs_of. simpl foldl.
  rewrite foldl_push_split_join by exact Hp. rewrite app_nil_r. apply rev_involutive.
Qed.

Lemma abs_of_inj segs1 segs2 :
  Forall proper segs1 -> Forall proper segs2 -> abs_of segs1 = abs_of segs2 -> segs1 = segs2.
Proof.
  intros H1 H2 Heq. rewrite <- (segments_abs_of segs1 H1), <- (segments_abs_of segs2 H2).
  rewrite Heq. reflexivity.
Qed.

Lemma normalized_absolute_abs_of segs :
  Forall proper segs -> normalized_absolute (abs_of segs) = true.
Proof.
  intros Hp. rewrite abs_of_cons. simpl. destruct segs as [|seg segs]; [reflexivity|].
  rewrite split_join_slash; [|discriminate|apply Forall_proper_slash_free; exact Hp].
  apply orb_true_iff. right. apply forallb_forall. intros x Hx.
  rewrite Forall_forall in Hp. apply Hp. apply list_elem_of_In. exact Hx.
Qed.

(** [path.resolve] leaves a normalized absolute path as it is. *)
Lemma resolve_abs_of wd segs :
  Forall proper segs -> Path.resolve wd (abs_of segs) = abs_of segs.
Proof.
  intros Hp. unfold Path.resolve.
  assert (Hne : String.eqb (abs_of segs) "" = false) by reflexivity.
  assert (Habs : Path.isAbsolute (abs_of segs) = true) by reflexivity.
  rewrite Hne, Habs. simpl orb. cbv iota.
  unfold Path.normalizeString, Path.normalize_segments. simpl negb.
  replace (abs_of segs +:+ "/") with (abs_of segs +:+ "/" +:+ "") by reflexivity.
  rewrite split_slash_app, split_slash_abs_of, foldl_app.
  change (foldl (Path.push_segment false) [] ("" :: ?l))
    with (foldl (Path.push_segment false) [] l).
  rewrite foldl_push_split_join by exact Hp.
  change (Path.split_slash "") with [""]. cbn [foldl].
  change (Path.push_segment false ?st "") with st.
  rewrite app_nil_r, rev_involutive. reflexivity.
Qed.

Lemma endsWith_unfold s t :
  endsWith s t =
    if String.eqb s t then true
    else match s with
         | EmptyString => false
         | String _ s' => endsWith s' t
         end.
Proof. destruct s; reflexivity. Qed.

Lemma endsWith_slash_free x f :
  slash_free f = true -> f <> "" -> endsWith (x +:+ f) "/" = false.
Proof.
  intros Hfree Hne. induction x as [|c x IH].
  - rewrite string_app_nil_l. clear Hne.
    induction f as [|c f IH]; [reflexivity|].
    simpl in Hfree. apply andb_true_iff in Hfree as [Hc Hfree].
    apply negb_true_iff in Hc.
    rewrite endsWith_unfold. simpl String.eqb. rewrite Hc. exact (IH Hfree).
  - rewrite string_app_cons, endsWith_unfold.
    destruct (String.eqb_spec (String c (x +:+ f)) "/") as [Heq|_]; [|exact IH].
    injection Heq as _ Heq. apply string_app_empty in Heq. contradiction.
Qed.

Lemma string_app_assoc a b c : (a +:+ b) +:+ c = a +:+ b +:+ c.
Proof. induction a as [|x a IH]; [reflexivity|]. rewrite !string_app_cons. congruence. Qed.

(** [path.join] of a normalized absolute path and an entry name. *)
Lemma join_abs_of segs f :
  Forall proper segs -> proper_segment f = true ->
  Path.join (abs_of segs) f = abs_of (segs ++ [f]).
Proof.
  intros Hp Hf. pose proof (proper_segment_inv _ Hf) as (Hfree & Hne & _ & _).
  unfold Path.join.
  assert (Ha : String.eqb (abs_of segs) "" = false) by reflexivity.
  rewrite Ha. apply String.eqb_neq in Hne as Hne'. rewrite Hne'.
  unfold Path.normalize.
  assert (H1 : String.eqb (abs_of segs +:+ "/" +:+ f) "" = false) by reflexivity.
  assert (H2 : Path.isAbsolute (abs_of segs +:+ "/" +:+ f) = true) by reflexivity.
  assert (H3 : endsWith (abs_of segs +:+ "/" +:+ f) "/" = false).
  { rewrite <- string_app_assoc. apply endsWith_slash_free; assumption. }
  rewrite H1, H2, H3. cbv zeta. simpl negb.
  assert (Hq : Path.normalizeString (abs_of segs +:+ "/" +:+ f) false
               = Path.join_slash (segs ++ [f])).
  { unfold Path.normalizeString, Path.normalize_segments. f_equal.
    rewrite split_slash_app, split_slash_abs_of, foldl_app.
    change (foldl (Path.push_segment false) [] ("" :: ?l))
      with (foldl (Path.push_segment false) [] l).
    rewrite foldl_push_split_join by exact Hp.
    rewrite split_slash_free by exact Hfree. cbn [foldl].
    rewrite push_proper by exact Hf.
    rewrite app_nil_r. simpl rev. rewrite rev_involutive. reflexivity. }
  rewrite Hq.
  destruct (String.eqb_spec (Path.join_slash (segs ++ [f])) "") as [Heq|_].
  - exfalso. exact (join_slash_snoc_nonempty segs f Hne Heq).
  - reflexivity.
Qed.

Lemma push_segment_keeps_proper stack seg :
  slash_free seg = true ->
  Forall proper stack ->
  Forall proper (Path.push_segment false stack seg).
Proof.
  intros Hfree Hst. unfold Path.push_segment.
  destruct (String.eqb_spec seg "") as [|H1]; [exact Hst|].
  destruct (String.eqb_spec seg ".") as [|H2]; [exact Hst|]. simpl orb. cbv iota.
  destruct (String.eqb_spec seg "..") as [|H3].
  - destruct stack as [|top below]; [constructor|].
    destruct (String.eqb top ".."); [exact Hst|]. inversion Hst; assumption.
  - constructor; [|exact Hst]. unfold proper_segment. rewrite Hfree.
    apply String.eqb_neq in H1, H2, H3. rewrite H1, H2, H3. reflexivity.
Qed.

Lemma normalize_segments_proper segs :
  Forall (fun seg => slash_free seg = true) segs ->
  Forall proper (Path.normalize_segments false segs).
Proof.
  intros Hfree. unfold Path.normalize_segments.
  assert (H : forall stack, Forall proper stack ->
                Forall proper (foldl (Path.push_segment false) stack segs)).
  { induction Hfree as [|seg segs Hseg _ IH]; intros stack Hst; [exact Hst|].
    simpl. apply IH. apply push_segment_keeps_proper; assumption. }
  specialize (H [] ltac:(constructor)).
  rewrite Forall_forall in *. intros x Hx. apply H.
  apply list_elem_of_In, in_rev, list_elem_of_In. exact Hx.
Qed.

(** In a process whose working directory is absolute, [path.resolve] returns
    a normalized absolute path. *)
Lemma resolve_abs wd p :
  Path.isAbsolute wd = true ->
  exists segs, Forall proper segs /\ Path.resolve wd p = abs_of segs.
Proof.
  intros Hwd. unfold Path.resolve. rewrite Hwd, orb_true_r.
  exists (Path.normalize_segments false
            (Path.split_slash
               (if Path.isAbsolute p || String.eqb wd ""
                then (if String.eqb p "" then "" else p +:+ "/")
                else wd +:+ "/" +:+ (if String.eqb p "" then "" else p +:+ "/")))).
  split; [|reflexivity].
  apply normalize_segments_proper, split_slash_slash_free.
Qed.

(** ** [readRecursively]: keys *)

(** A key of [Object.assign(target, ...sources)] comes from the target or
    from one of the sources. *)
Lemma Object_assign_lookup {V : Type} (sources : list (gmap string V)) :
  forall (target : gmap string V) key v,
    Object_assign target sources !! key = Some v ->
    target !! key = Some v \/ exists j m, sources !! j = Some m /\ m !! key = Some v.
Proof.
  unfold Object_assign.
  induction sources as [|src sources IH]; intros target key v Hlook; simpl in Hlook.
  - left. exact Hlook.
  - destruct (IH _ _ _ Hlook) as [Hu|(j & m & Hj & Hm)].
    + apply lookup_union_Some_raw in Hu as [Hsrc|[_ Htgt]].
      * right. exists 0, src. split; [reflexivity | exact Hsrc].
      * left. exact Htgt.
    + right. exists (S j), m. split; assumption.
Qed.

(** The key stored by a leaf visit spells out the way down to it. *)
Lemma leaf_visit_key fs ext fsPath trail key :
  proper_listing fs ->
  leaf_visit fs ext fsPath trail key ->
  forall segs, Forall proper segs ->
    Path.resolve (cwd fs) fsPath = abs_of segs ->
    Forall proper trail /\ key = abs_of (segs ++ trail).
Proof.
  intros Hls Hleaf.
  induction Hleaf as [fsPath stats cont Hstat Hmatch Hread
                     | fsPath stats files f trail key Hstat Hmatch Hdir Hfiles Hf Hsub IH];
    intros segs Hsegs Habs.
  - split; [constructor|]. rewrite app_nil_r. exact Habs.
  - destruct (Hls _ _ Hfiles) as [_ Hproper].
    rewrite Forall_forall in Hproper. specialize (Hproper f Hf).
    destruct (IH (segs ++ [f])) as [Htrail Hkey].
    + apply Forall_app. split; [exact Hsegs | repeat constructor; exact Hproper].
    + rewrite Habs, join_abs_of by assumption. apply resolve_abs_of.
      apply Forall_app. split; [exact Hsegs | repeat constructor; exact Hproper].
    + split; [constructor; assumption|]. rewrite Hkey, <- app_assoc. reflexivity.
Qed.

(** Every entry of a fulfilled result was stored by a leaf visit. *)
Lemma readRecursively_key_visited fs sched ext fuel :
  forall fsPath (result : gmap string string) key cont,
    readRecursively fuel fs sched fsPath ext = Fulfilled result ->
    result !! key = Some cont ->
    readFile fs key = Ok cont /\ exists trail, leaf_visit fs ext fsPath trail key.
Proof.
  induction fuel as [|fuel IH]; intros fsPath result key cont Hrun Hkey; [discriminate|].
  rewrite readRecursively_unfold in Hrun. cbv zeta in Hrun.
  destruct (stat fs _) as [stats|statErr] eqn:Hstat; [|discriminate].
  destruct (isFile stats && _) eqn:Hmatch.
  { destruct (readFile fs _) as [cont'|e] eqn:Hread; [|discriminate].
    injection Hrun as <-. apply lookup_singleton_Some in Hkey as [<- <-].
    split; [exact Hread|]. exists []. eapply leaf_here; eassumption. }
  destruct (isDirectory stats) eqn:Hdir.
  2:{ injection Hrun as <-. rewrite lookup_empty in Hkey. discriminate. }
  destruct (readdir fs _) as [files|readErr] eqn:Hfiles; [|discriminate].
  destruct (promiseAll _ _) as [|values|e] eqn:Hall; try discriminate.
  injection Hrun as <-.
  apply Object_assign_lookup in Hkey as [Hempty|(j & m & Hj & Hm)].
  { rewrite lookup_empty in Hempty. discriminate. }
  apply promiseAll_fulfilled_inv in Hall.
  destruct (Forall2_lookup_r _ _ _ _ _ Hall Hj) as (pj & Hpj & ->).
  rewrite list_lookup_fmap in Hpj.
  destruct (files !! j) as [f|] eqn:Hf; [|discriminate].
  injection Hpj as Hpj.
  destruct (IH _ _ _ _ Hpj Hm) as [Hread (trail & Hleaf)].
  split; [exact Hread|]. exists (f :: trail).
  eapply leaf_below; try eassumption.
  eapply list_elem_of_lookup_2. exact Hf.
Qed.

(** A fulfilled result does not depend on the nesting allowed. *)
Lemma readRecursively_fulfilled_more_fuel fs sched ext fuel :
  forall fsPath (result : gmap string string),
    readRecursively fuel fs sched fsPath ext = Fulfilled result ->
    readRecursively (S fuel) fs sched fsPath ext = Fulfilled result.
Proof.
  induction fuel as [|fuel IH]; intros fsPath result Hrun; [discriminate|].
  rewrite readRecursively_unfold in Hrun. rewrite readRecursively_unfold.
  cbv zeta in *.
  destruct (stat fs _) as [stats|statErr]; [|discriminate].
  destruct (isFile stats && _); [exact Hrun|].
  destruct (isDirectory stats); [|exact Hrun].
  destruct (readdir fs _) as [files|readErr]; [|discriminate].
  destruct (promiseAll _ _) as [|values|e] eqn:Hall; try discriminate.
  replace (map (fun f => readRecursively (S fuel) fs sched _ ext) files)
    with (map (fun f => readRecursively fuel fs sched
                          (Path.join (Path.resolve (cwd fs) fsPath) f) ext) files).
  { rewrite Hall. exact Hrun. }
  apply promiseAll_fulfilled_inv, Forall2_fmap_l in Hall.
  clear Hrun. induction Hall as [|f m files values Hf _ IHall]; [reflexivity|].
  cbn [map]. f_equal; [|exact IHall].
  cbv beta in Hf. rewrite Hf. symmetry. apply IH. exact Hf.
Qed.

(** C9: in a process with an absolute working directory, over listings of
    distinct proper names, every key of a fulfilled result is a normalized
    absolute path, the resolved path of a regular file that was read, stored
    by exactly one leaf visit; and the mappings of the entries of a directory,
    which [Object.assign] merges, are pairwise disjoint. *)
Theorem readRecursively_keys (fs : FileSystem) (sched : string -> list nat)
    (ext fsPath : string) (fuel : nat) (result : gmap string string) :
  Path.isAbsolute (cwd fs) = true ->
  proper_listing fs ->
  readRecursively fuel fs sched fsPath ext = Fulfilled result ->
  (forall key cont, result !! key = Some cont ->
     normalized_absolute key = true /\
     readFile fs key = Ok cont /\
     exists trail,
       leaf_visit fs ext fsPath trail key /\
       forall trail', leaf_visit fs ext fsPath trail' key -> trail' = trail) /\
  (forall stats files,
     stat fs (Path.resolve (cwd fs) fsPath) = Ok stats ->
     isFile stats && includes (Path.extname (Path.resolve (cwd fs) fsPath)) ext = false ->
     isDirectory stats = true ->
     readdir fs (Path.resolve (cwd fs) fsPath) = Ok files ->
     exists values,
       Forall2 (fun f m =>
                  readRecursively (fuel - 1) fs sched
                    (Path.join (Path.resolve (cwd fs) fsPath) f) ext = Fulfilled m)
               files values /\
       result = Object_assign ∅ values /\
       forall i j mi mj, i <> j -> values !! i = Some mi -> values !! j = Some mj ->
                         mi ##ₘ mj).
Proof.
  intros Hwd Hls Hrun.
  destruct (resolve_abs (cwd fs) fsPath Hwd) as (segs & Hsegs & Habs).
  split.
  - intros key cont Hkey.
    destruct (readRecursively_key_visited _ _ _ _ _ _ _ _ Hrun Hkey) as [Hread (trail & Hleaf)].
    destruct (leaf_visit_key _ _ _ _ _ Hls Hleaf segs Hsegs Habs) as [Htrail ->].
    split; [|split; [exact Hread|]].
    + apply normalized_absolute_abs_of, Forall_app. split; assumption.
    + exists trail. split; [exact Hleaf|]. intros trail' Hleaf'.
      destruct (leaf_visit_key _ _ _ _ _ Hls Hleaf' segs Hsegs Habs) as [Htrail' Heq].
      apply abs_of_inj in Heq; [|apply Forall_app; split; assumption..].
      apply app_inv_head in Heq. congruence.
  - intros stats files Hstat Hmatch Hdir Hfiles.
    destruct fuel as [|fuel]; [discriminate|].
    rewrite readRecursively_unfold in Hrun. cbv zeta in Hrun.
    rewrite Hstat, Hmatch, Hdir, Hfiles in Hrun.
    destruct (promiseAll _ _) as [|values|e] eqn:Hall; try discriminate.
    injection Hrun as <-.
    apply promiseAll_fulfilled_inv, Forall2_fmap_l in Hall.
    replace (S fuel - 1) with fuel by lia.
    exists values. split; [exact Hall|]. split; [reflexivity|].
    intros i j mi mj Hne Hi Hj.
    destruct (Forall2_lookup_r _ _ _ _ _ Hall Hi) as (fi & Hfi & Hruni).
    destruct (Forall2_lookup_r _ _ _ _ _ Hall Hj) as (fj & Hfj & Hrunj).
    destruct (Hls _ _ Hfiles) as [Hnodup Hproper].
    rewrite Forall_forall in Hproper.
    assert (Hpi : proper_segment fi = true)
      by (apply Hproper; eapply list_elem_of_lookup_2; exact Hfi).
    assert (Hpj : proper_segment fj = true)
      by (apply Hproper; eapply list_elem_of_lookup_2; exact Hfj).
    assert (Hunder : forall f m key cont,
               proper_segment f = true ->
               readRecursively fuel fs sched
                 (Path.join (Path.resolve (cwd fs) fsPath) f) ext = Fulfilled m ->
               m !! key = Some cont ->
               exists trail, Forall proper trail /\ key = abs_of ((segs ++ [f]) ++ trail)).
    { intros f m key cont Hf Hrunf Hkey.
      destruct (readRecursively_key_visited _ _ _ _ _ _ _ _ Hrunf Hkey) as [_ (trail & Hleaf)].
      exists trail. eapply leaf_visit_key; [exact Hls | exact Hleaf | |].
      - apply Forall_app. split; [exact Hsegs | repeat constructor; exact Hf].
      - rewrite Habs, join_abs_of by assumption. apply resolve_abs_of.
        apply Forall_app. split; [exact Hsegs | repeat constructor; exact Hf]. }
    apply map_disjoint_spec. intros key x y Hx Hy.
    destruct (Hunder _ _ _ _ Hpi Hruni Hx) as (ti & Hti & Hki).
    destruct (Hunder _ _ _ _ Hpj Hrunj Hy) as (tj & Htj & Hkj).
    rewrite Hki in Hkj. apply abs_of_inj in Hkj.
    + rewrite <- !app_assoc in Hkj. apply app_inv_head in Hkj.
      simpl in Hkj. injection Hkj as Hf _. subst fj.
      apply Hne. eapply NoDup_lookup; eassumption.
    + repeat (apply Forall_app; split); try assumption. repeat constructor. exact Hpi.
    + repeat (apply Forall_app; split); try assumption. repeat constructor. exact Hpj.
Qed.

Lemma lookup_node_In tbl p n : Table.lookup_node tbl p = Some n -> In (p, n) tbl.
Proof.
  induction tbl as [|[q m] tbl IH]; simpl; [discriminate|].
  destruct (String.eqb_spec q p) as [->|_]; [intros [= ->]; left; reflexivity|].
  intros H. right. exact (IH H).
Qed.

Lemma fileSystem_proper_listing wd tbl :
  proper_table tbl = true -> proper_listing (Table.fileSystem wd tbl).
Proof.
  unfold proper_table. rewrite forallb_forall. intros Htbl abs files Hfiles.
  simpl in Hfiles.
  destruct (Table.lookup_node tbl _) as [[]|] eqn:Hlook; try discriminate.
  injection Hfiles as ->. apply lookup_node_In, Htbl in Hlook. simpl in Hlook.
  apply andb_true_iff in Hlook as [Hnd Hp]. split.
  - apply bool_decide_eq_true in Hnd. exact Hnd.
  - rewrite forallb_forall in Hp. apply Forall_forall. intros f Hf.
    apply Hp, list_elem_of_In. exact Hf.
Qed.

Lemma repo_proper_listing : proper_listing Table.repo.
Proof. unfold Table.repo. apply fileSystem_proper_listing. reflexivity. Qed.

Lemma readRecursively_keys_witness :
  readRecursively 3 Table.repo (Table.reversed Table.repo) "repo/src" "txt"
    = Fulfilled {[ "/w/repo/src/a.txt" := "x"; "/w/repo/src/sub/b.txt" := "y" ]} /\
  normalized_absolute "/w/repo/src/sub/b.txt" = true /\
  readFile Table.repo "/w/repo/src/sub/b.txt" = Ok "y" /\
  exists trail,
    leaf_visit Table.repo "txt" "repo/src" trail "/w/repo/src/sub/b.txt" /\
    forall trail', leaf_visit Table.repo "txt" "repo/src" trail' "/w/repo/src/sub/b.txt" ->
                   trail' = trail.
Proof.
  split; [reflexivity|].
  apply (proj1 (readRecursively_keys Table.repo (Table.reversed Table.repo)
                  "txt" "repo/src" 3
                  {[ "/w/repo/src/a.txt" := "x"; "/w/repo/src/sub/b.txt" := "y" ]}
                  eq_refl repo_proper_listing eq_refl)
               "/w/repo/src/sub/b.txt" "y").
  reflexivity.
Defined.

(** * Further properties *)

(** ** [raceSuccess]: what an outcome tells *)

Lemma swapped_lookup_rejected {A E : Type} (promises : list (promise A E)) j v :
  map (fun p => then_ p (fun val => Rejected val) (fun err => Fulfilled err)) promises !! j
    = Some (Rejected v) ->
  promises !! j = Some (Fulfilled v).
Proof.
  rewrite list_lookup_fmap. destruct (promises !! j) as [[|w|e]|]; simpl; congruence.
Qed.

Lemma swapped_all_fulfilled {A E : Type} (promises : list (promise A E)) errs :
  Forall2 (fun p x => p = Fulfilled x)
    (map (fun p => then_ p (fun val => @Rejected E A val) (fun err => Fulfilled err)) promises)
    errs ->
  promises = map Rejected errs.
Proof.
  intros H. apply Forall2_fmap_l in H.
  induction H as [|p e ps es Hp _ IH]; [reflexivity|].
  simpl. rewrite <- IH. f_equal. destruct p; simpl in Hp; congruence.
Qed.








(** ** [readAnyFile] *)

Lemma readAnyFile_attempt fs filePaths j :
  map (fun fp => then_ (readFileAsync fs fp)
                   (fun data => @Fulfilled FileData Error {| file := fp; data := data |})
                   (fun err => Rejected err)) filePaths !! j
  = (fun fp => match readFile fs fp with
               | Ok data => Fulfilled {| file := fp; data := data |}
               | Err err => Rejected err
               end) <$> filePaths !! j.
Proof.
  rewrite list_lookup_fmap. destruct (filePaths !! j) as [fp|]; [|reflexivity].
  simpl. unfold readFileAsync. destruct (readFile fs fp); reflexivity.
Qed.

(** X4: what [readAnyFile] resolves with names one of the given paths
    together with the content read from it. *)
Theorem readAnyFile_fulfilled_inv (fs : FileSystem) (filePaths : list string)
    (schedule : list nat) (found : FileData) :
  readAnyFile fs filePaths schedule = Fulfilled found ->
  file found ∈ filePaths /\ readFile fs (file found) = Ok (data found).
Proof.
  unfold readAnyFile, raceSuccess. intros Hrun.
  destruct (promiseAll _ schedule) as [|errs|w] eqn:Hall; try discriminate.
  injection Hrun as ->.
  apply promiseAll_rejected_inv in Hall as (j & _ & Hp).
  apply swapped_lookup_rejected in Hp. rewrite readAnyFile_attempt in Hp.
  destruct (filePaths !! j) as [fp|] eqn:Hfp; [|discriminate]. simpl in Hp.
  destruct (readFile fs fp) as [content|e] eqn:Hread; [|discriminate].
  injection Hp as <-. simpl. split; [|exact Hread].
  eapply list_elem_of_lookup_2. exact Hfp.
Qed.

Lemma readAnyFile_fulfilled_inv_witness :
  "/w/repo/src/sub/b.txt" ∈ ["/w/nope"; "/w/repo/src/a.txt"; "/w/repo/src/sub/b.txt"] /\
  readFile Table.repo "/w/repo/src/sub/b.txt" = Ok "y".
Proof.
  apply (readAnyFile_fulfilled_inv Table.repo
           ["/w/nope"; "/w/repo/src/a.txt"; "/w/repo/src/sub/b.txt"] [0; 2; 1]
           {| file := "/w/repo/src/sub/b.txt"; data := "y" |}).
  reflexivity.
Defined.

(** X5: [readAnyFile] rejects only when no path could be read, and then
    with the error of each read, in the order of the paths. *)
Theorem readAnyFile_rejected_inv (fs : FileSystem) (filePaths : list string)
    (schedule : list nat) (errs : list Error) :
  readAnyFile fs filePaths schedule = Rejected errs ->
  Forall2 (fun fp err => readFile fs fp = Err err) filePaths errs.
Proof.
  unfold readAnyFile, raceSuccess. intros Hrun.
  destruct (promiseAll _ schedule) as [|es|w] eqn:Hall; try discriminate.
  injection Hrun as ->.
  apply promiseAll_fulfilled_inv, swapped_all_fulfilled in Hall.
  revert errs Hall. induction filePaths as [|fp fps IH]; intros [|e errs] Hall;
    try discriminate; [constructor|].
  simpl in Hall. injection Hall as Hfp Hrest. constructor; [|apply IH; exact Hrest].
  unfold readFileAsync in Hfp. destruct (readFile fs fp); simpl in Hfp; congruence.
Qed.

Lemma readAnyFile_rejected_inv_witness :
  Forall2 (fun fp err => readFile Table.repo fp = Err err)
    ["/w/nope"; "/w/repo"] [Table.ENOENT; Table.EISDIR].
Proof.
  apply (readAnyFile_rejected_inv Table.repo ["/w/nope"; "/w/repo"] [1; 0]
           [Table.ENOENT; Table.EISDIR]).
  reflexivity.
Defined.

(** X6: when the settling of every read is seen and one of the paths can be
    read, [readAnyFile] resolves. *)
Theorem readAnyFile_finds_readable (fs : FileSystem) (filePaths : list string)
    (schedule : list nat) (fp content : string) :
  (forall i, i < length filePaths -> i ∈ schedule) ->
  fp ∈ filePaths ->
  readFile fs fp = Ok content ->
  exists found, readAnyFile fs filePaths schedule = Fulfilled found.
Proof.
  intros Hcov Hfp Hread. unfold readAnyFile, raceSuccess.
  apply list_elem_of_lookup_1 in Hfp as [i Hi].
  destruct (promiseAll_some_rejection
              (map (fun p => then_ p (fun val => @Rejected Error FileData val)
                               (fun err => Fulfilled err))
                 (map (fun fp => then_ (readFileAsync fs fp)
                                   (fun data => @Fulfilled FileData Error
                                                  {| file := fp; data := data |})
                                   (fun err => Rejected err)) filePaths)) schedule)
    as (j & found & _ & Hall).
  { exists i, {| file := fp; data := content |}. split.
    - apply Hcov. eapply lookup_lt_Some. exact Hi.
    - rewrite list_lookup_fmap, readAnyFile_attempt, Hi. simpl. rewrite Hread. reflexivity. }
  exists found. rewrite Hall. reflexivity.
Qed.

Lemma readAnyFile_finds_readable_witness :
  exists found,
    readAnyFile Table.repo ["/w/nope"; "/w/repo/src/a.txt"] [1; 0] = Fulfilled found.
Proof.
  apply (readAnyFile_finds_readable Table.repo ["/w/nope"; "/w/repo/src/a.txt"] [1; 0]
           "/w/repo/src/a.txt" "x").
  - intros i Hi. simpl in Hi. destruct i as [|[|i]]; [| |lia].
    + apply list_elem_of_further, list_elem_of_here.
    + apply list_elem_of_here.
  - apply list_elem_of_further, list_elem_of_here.
  - reflexivity.
Defined.

(** ** [detectGit]: what a success tells, and how much is read *)





Lemma readGitMeta_log_length (fs : FileSystem) (dir : string) :
  length (fst (readGitMeta dir fs)) <= 2.
Proof.
  unfold readGitMeta, bind, fs_readFile, ret.
  destruct (readFile fs _) as [branchData|e]; simpl; [|lia].
  destruct (readFile fs _); simpl; lia.
Qed.

Lemma detectGit_from_log (fs : FileSystem) fuel : forall directory iter,
  iter <= 10 ->
  exists n reads,
    iter + n <= 10 /\
    fst (detectGit_from fuel directory iter fs) = probes directory n ++ reads /\
    length reads <= 2 /\
    Forall (fun c => exists p, c = ReadFileCall p) reads.
Proof.
  induction fuel as [|fuel IH]; intros directory iter Hiter.
  { exists 0, []. repeat split; [lia | simpl; lia | constructor]. }
  rewrite detectGit_from_unfold.
  destruct (String.eqb directory "/").
  { exists 0, []. repeat split; [lia | simpl; lia | constructor]. }
  destruct (Nat.eqb_spec iter 10) as [|Hne].
  { exists 0, []. repeat split; [lia | simpl; lia | constructor]. }
  simpl orb. cbv iota zeta.
  destruct (stat fs _) as [st|e].
  - exists 1, (fst (readGitMeta (Path.dirname directory) fs)).
    repeat split; [lia | apply readGitMeta_log_length | apply readGitMeta_log].
  - destruct (IH (Path.dirname directory) (iter + 1) ltac:(lia))
      as (n & reads & Hn & Hlog & Hlen & Hreads).
    exists (S n), reads. repeat split; [lia | | exact Hlen | exact Hreads].
    cbn [fst]. rewrite Hlog, probes_succ. reflexivity.
Qed.

(** X8: whatever the file system holds, [detectGit] probes the ancestors of
    the start directory in order, nearest first and ten at most, and after the
    probes reads two files at most. *)
Theorem detectGit_bounded_io (fs : FileSystem) (directory : string) :
  exists n reads,
    n <= 10 /\
    fst (detectGit directory fs) = probes directory n ++ reads /\
    length reads <= 2 /\
    Forall (fun c => exists p, c = ReadFileCall p) reads.
Proof.
  destruct (detectGit_from_log fs 11 directory 0 ltac:(lia))
    as (n & reads & Hn & Hlog & Hlen & Hreads).
  exists n, reads. repeat split; [lia | exact Hlog | exact Hlen | exact Hreads].
Qed.

(** ** [readGitMeta]: a [HEAD] that is too short *)

Lemma substring_none n s : substring n 0 s = "".
Proof.
  revert s. induction n as [|n IH]; intros [|c s]; simpl; auto.
Qed.

Lemma slice_short (s : string) : String.length s <= 17 -> slice s 16 (-1) = "".
Proof.
  intros Hlen. unfold slice.
  replace (Z.to_nat (Z.max _ 0)) with 0; [apply substring_none|].
  destruct (Z.ltb_spec 16 0); [lia|]. destruct (Z.ltb_spec (-1) 0); lia.
Qed.

(** X9: when [.git/HEAD] holds 17 characters or fewer, the branch taken from
    it is empty: the second read is that of [.git/refs/heads/] itself, and a
    result, if any, has the empty branch. *)
Theorem readGitMeta_short_head (fs : FileSystem) (dir branchData : string) :
  readFile fs (Path.join dir ".git/HEAD") = Ok branchData ->
  String.length branchData <= 17 ->
  fst (readGitMeta dir fs) =
    [ReadFileCall (Path.join dir ".git/HEAD");
     ReadFileCall (Path.join dir ".git/refs/heads/")] /\
  forall git, snd (readGitMeta dir fs) = Ok git -> branch git = "".
Proof.
  intros Hhead Hlen. unfold readGitMeta, bind, fs_readFile, ret.
  rewrite Hhead, (slice_short _ Hlen).
  change (".git/refs/heads/" +:+ "") with ".git/refs/heads/".
  destruct (readFile fs (Path.join dir ".git/refs/heads/")); simpl.
  - split; [reflexivity|]. intros git [= <-]. reflexivity.
  - split; [reflexivity|]. discriminate.
Qed.

Lemma readGitMeta_short_head_witness :
  fst (readGitMeta "/w/repo" truncated_head) =
    [ReadFileCall "/w/repo/.git/HEAD"; ReadFileCall "/w/repo/.git/refs/heads/"] /\
  forall git, snd (readGitMeta "/w/repo" truncated_head) = Ok git -> branch git = "".
Proof.
  apply (readGitMeta_short_head truncated_head "/w/repo" "").
  - reflexivity.
  - simpl. lia.
Defined.

(** ** [readRecursively]: what a fulfilled result tells *)

Lemma visit_fails_not_fulfilled fs sched ext fsPath err :
  visit_fails fs ext fsPath err ->
  forall fuel (result : gmap string string),
    readRecursively fuel fs sched fsPath ext <> Fulfilled result.
Proof.
  intros Hfail.
  induction Hfail as [fsPath err Hstat | fsPath stats err Hstat Hmatch Hread
                     | fsPath stats err Hstat Hmatch Hdir Hls
                     | fsPath stats files f err Hstat Hmatch Hdir Hls Hf Hsub IH];
    intros [|fuel] result; try discriminate;
    rewrite readRecursively_unfold; cbv zeta; rewrite Hstat; try discriminate;
    rewrite Hmatch.
  - rewrite Hread. discriminate.
  - rewrite Hdir, Hls. discriminate.
  - rewrite Hdir, Hls.
    destruct (promiseAll _ _) as [|values|e] eqn:Hall; try discriminate.
    exfalso. apply promiseAll_fulfilled_inv, Forall2_fmap_l in Hall.
    apply list_elem_of_lookup_1 in Hf as [i Hi].
    destruct (Forall2_lookup_l _ _ _ _ _ Hall Hi) as (m & _ & Hm).
    exact (IH fuel m Hm).
Qed.

(** X10: a fulfilled result means that nothing failed: no [stat], no read of
    a matching file and no listing anywhere in the traversal, whatever the
    order in which the entries settled. *)
Theorem readRecursively_fulfilled_no_failure (fs : FileSystem) (sched : string -> list nat)
    (ext fsPath : string) (fuel : nat) (result : gmap string string) :
  readRecursively fuel fs sched fsPath ext = Fulfilled result ->
  forall err, ~ visit_fails fs ext fsPath err.
Proof.
  intros Hrun err Hfail. exact (visit_fails_not_fulfilled _ _ _ _ _ Hfail _ _ Hrun).
Qed.

Lemma readRecursively_fulfilled_no_failure_witness :
  ~ visit_fails Table.repo "txt" "repo/src" Table.ENOENT.
Proof.
  apply (readRecursively_fulfilled_no_failure Table.repo (Table.reversed Table.repo)
           "txt" "repo/src" 3
           {[ "/w/repo/src/a.txt" := "x"; "/w/repo/src/sub/b.txt" := "y" ]}
           eq_refl Table.ENOENT).
Defined.

(** A key of the target or of a source is a key of [Object.assign]'s result. *)
Lemma Object_assign_is_Some {V : Type} (sources : list (gmap string V)) :
  forall (target : gmap string V) key,
    (is_Some (target !! key) \/
     exists j m, sources !! j = Some m /\ is_Some (m !! key)) ->
    is_Some (Object_assign target sources !! key).
Proof.
  unfold Object_assign.
  induction sources as [|src sources IH]; intros target key H; simpl.
  - destruct H as [H|(j & m & Hj & _)]; [exact H | discriminate].
  - apply IH. destruct H as [H|([|j] & m & Hj & Hm)].
    + left. apply lookup_union_is_Some. right. exact H.
    + left. apply lookup_union_is_Some. left. simpl in Hj. congruence.
    + right. exists j, m. split; assumption.
Qed.

(** X11: a fulfilled result holds the key of every leaf visit, with the
    content read from the file of that name: together with the description of
    its keys, the result is exactly the matching regular files reached. *)
Theorem readRecursively_holds_every_leaf (fs : FileSystem) (sched : string -> list nat)
    (ext fsPath : string) (trail : list string) (key : string) :
  leaf_visit fs ext fsPath trail key ->
  forall fuel (result : gmap string string),
    readRecursively fuel fs sched fsPath ext = Fulfilled result ->
    exists cont, result !! key = Some cont /\ readFile fs key = Ok cont.
Proof.
  intros Hleaf.
  assert (Hin : forall fuel (result : gmap string string),
             readRecursively fuel fs sched fsPath ext = Fulfilled result ->
             is_Some (result !! key)).
  { induction Hleaf as [fsPath stats cont Hstat Hmatch Hread
                       | fsPath stats files f trail key Hstat Hmatch Hdir Hfiles Hf Hsub IH];
      intros [|fuel] result Hrun; try discriminate;
      rewrite readRecursively_unfold in Hrun; cbv zeta in Hrun;
      rewrite Hstat, Hmatch in Hrun.
    - rewrite Hread in Hrun. injection Hrun as <-.
      rewrite lookup_singleton_eq. eauto.
    - rewrite Hdir, Hfiles in Hrun.
      destruct (promiseAll _ _) as [|values|e] eqn:Hall; try discriminate.
      injection Hrun as <-.
      apply promiseAll_fulfilled_inv, Forall2_fmap_l in Hall.
      apply list_elem_of_lookup_1 in Hf as [i Hi].
      destruct (Forall2_lookup_l _ _ _ _ _ Hall Hi) as (m & Hm & Hrunf).
      apply Object_assign_is_Some. right. exists i, m. split; [exact Hm|].
      exact (IH fuel m Hrunf). }
  intros fuel result Hrun. destruct (Hin fuel result Hrun) as [cont Hcont].
  exists cont. split; [exact Hcont|].
  exact (proj1 (readRecursively_key_visited _ _ _ _ _ _ _ _ Hrun Hcont)).
Qed.

Lemma readRecursively_holds_every_leaf_witness :
  exists cont,
    ({[ "/w/repo/src/a.txt" := "x"; "/w/repo/src/sub/b.txt" := "y" ]}
       : gmap string string) !! "/w/repo/src/sub/b.txt" = Some cont /\
    readFile Table.repo "/w/repo/src/sub/b.txt" = Ok cont.
Proof.
  refine (readRecursively_holds_every_leaf Table.repo (Table.reversed Table.repo)
            "txt" "repo/src" ["sub"; "b.txt"] "/w/repo/src/sub/b.txt" _ 3
            {[ "/w/repo/src/a.txt" := "x"; "/w/repo/src/sub/b.txt" := "y" ]} _).
  - apply (leaf_below Table.repo "txt" "repo/src" {| st_type := Directory |}
             ["a.txt"; "sub"] "sub" ["b.txt"] "/w/repo/src/sub/b.txt"
             eq_refl eq_refl eq_refl eq_refl).
    + apply list_elem_of_further, list_elem_of_here.
    + apply (leaf_below Table.repo "txt" "/w/repo/src/sub" {| st_type := Directory |}
               ["b.txt"; "c.log"] "b.txt" [] "/w/repo/src/sub/b.txt"
               eq_refl eq_refl eq_refl eq_refl).
      * apply list_elem_of_here.
      * apply (leaf_here Table.repo "txt" "/w/repo/src/sub/b.txt"
                 {| st_type := RegularFile |} "y" eq_refl eq_refl eq_refl).
  - reflexivity.
Defined.

(** ** [pick] *)

Lemma set_property_lookup {V : Type} (k : string) (v : V) (object : gmap string V) k' :
  set_property k v object !! k' =
    if decide (k = k' /\ k <> "__proto__") then Some v else object !! k'.
Proof.
  unfold set_property. destruct (String.eqb_spec k "__proto__") as [->|Hne].
  - rewrite decide_False by (intros [_ H]; contradiction). reflexivity.
  - destruct (decide (k = k')) as [->|Hk].
    + rewrite decide_True by auto. apply lookup_insert_eq.
    + rewrite decide_False by (intros [H _]; contradiction).
      apply lookup_insert_ne. exact Hk.
Qed.

Lemma foldl_pick_lookup {V : Type} (undefined : V) (inherited object : gmap string V) keys :
  forall (result : gmap string V) k,
    foldl (fun result k =>
             set_property k (get_property undefined inherited object k) result)
          result keys !! k
    = if decide (k ∈ keys /\ k <> "__proto__")
      then Some (get_property undefined inherited object k)
      else result !! k.
Proof.
  induction keys as [|k0 keys IH]; intros result k; cbn [foldl].
  - rewrite decide_False by (intros [Hin _]; inversion Hin). reflexivity.
  - rewrite IH, set_property_lookup.
    destruct (decide (k ∈ keys /\ k <> "__proto__")) as [[Hin Hne]|Hnin].
    + rewrite decide_True by (split; [apply list_elem_of_further|]; assumption).
      reflexivity.
    + destruct (decide (k0 = k /\ k0 <> "__proto__")) as [[-> Hne]|Hk0].
      * rewrite decide_True by (split; [apply list_elem_of_here | exact Hne]).
        reflexivity.
      * rewrite decide_False; [reflexivity|].
        intros [[->|Hin]%elem_of_cons Hne]; [apply Hk0 | apply Hnin]; auto.
Qed.




(** X14: picking all the own keys of an object that has no own [__proto__]
    gives the object back. *)
Theorem pick_all_keys {V : Type} (undefined : V) (inherited object : gmap string V)
    (keys : list string) :
  object !! "__proto__" = None ->
  (forall k, k ∈ keys <-> is_Some (object !! k)) ->
  pick undefined inherited object keys = object.
Proof.
  intros Hproto Hkeys. apply map_eq. intros k.
  unfold pick. rewrite foldl_pick_lookup, lookup_empty.
  destruct (decide (k ∈ keys /\ k <> "__proto__")) as [[Hin _]|Hnin].
  - apply Hkeys in Hin as [v Hv]. unfold get_property. rewrite Hv. reflexivity.
  - destruct (object !! k) as [v|] eqn:Hv; [|reflexivity].
    exfalso. apply Hnin. split; [apply Hkeys; eauto|]. intros ->. congruence.
Qed.

Lemma pick_all_keys_witness :
  pick 0 ∅ ({[ "a" := 1; "b" := 2 ]} : gmap string nat) ["b"; "a"]
  = {[ "a" := 1; "b" := 2 ]}.
Proof.
  apply (pick_all_keys 0 ∅ {[ "a" := 1; "b" := 2 ]} ["b"; "a"]).
  - reflexivity.
  - intros k. split.
    + intros Hk. apply elem_of_cons in Hk as [->|Hk]; [vm_compute; eauto|].
      apply elem_of_cons in Hk as [->|Hk]; [vm_compute; eauto|]. inversion Hk.
    + intros [v Hv]. apply lookup_insert_Some in Hv as [[<- _]|[_ Hv]].
      * apply list_elem_of_further, list_elem_of_here.
      * apply lookup_singleton_Some in Hv as [<- _]. apply list_elem_of_here.
Defined.



(** A key the object lacks is read from what it inherits, and stored. *)
Example pick_inherited :
  pick 0 {[ "toString" := 7 ]} ({[ "a" := 1 ]} : gmap string nat) ["toString"; "z"]
  = {[ "toString" := 7; "z" := 0 ]}.
Proof. reflexivity. Qed.

(** ** [mapValues] *)






(** ** [toCallback] *)

(** X18: [toCallback] undoes [readFileAsync]: the callback is called once,
    with what [fs.readFile] reports for the path. *)
Theorem toCallback_readFileAsync (fs : FileSystem) (filepath : string) :
  toCallback (readFileAsync fs filepath) = Some (readFile fs filepath).
Proof.
  unfold readFileAsync. destruct (readFile fs filepath); reflexivity.
Qed.

(** ** [ensureDirectory] *)

Section EnsureDirectory.
Context {St : Type} (D : Disk St).

(** One call of [ensureDirectory], unfolded. *)
Lemma ensureDirectory_unfold fuel dirPath st :
  ensureDirectory (S fuel) D dirPath st =
    match disk_stat D st dirPath with
    | Err _ =>
        match ensureDirectory fuel D (Path.dirname dirPath) st with
        | (log, st1, None) => (DStat dirPath :: log, st1, None)
        | (log, st1, Some (Some ensErr)) => (DStat dirPath :: log, st1, Some (Some ensErr))
        | (log, st1, Some None) =>
            (DStat dirPath :: log ++ [DMkdir dirPath],
             snd (disk_mkdir D st1 dirPath), Some (fst (disk_mkdir D st1 dirPath)))
        end
    | Ok _ => ([DStat dirPath], st, Some None)
    end.
Proof.
  simpl. destruct (disk_stat D st dirPath) as [stats|statErr]; [reflexivity|].
  destruct (ensureDirectory fuel D _ st) as [[log st1] [[ensErr|]|]]; try reflexivity.
  destruct (disk_mkdir D st1 dirPath). reflexivity.
Qed.

Lemma lineage_succ dirPath n :
  lineage dirPath (S n) = dirPath :: lineage (Path.dirname dirPath) n.
Proof.
  unfold lineage. simpl. f_equal. rewrite <- seq_shift, map_map.
  apply map_ext. intros k. apply ancestor_succ_r.
Qed.

Lemma mkdir_each_snoc paths : forall st p,
  mkdir_each D st (paths ++ [p]) =
    match mkdir_each D st paths with
    | (log, st1, Some e) => (log, st1, Some e)
    | (log, st1, None) =>
        (log ++ [DMkdir p], snd (disk_mkdir D st1 p), fst (disk_mkdir D st1 p))
    end.
Proof.
  induction paths as [|q paths IH]; intros st p; simpl.
  - destruct (disk_mkdir D st p) as [[e|] st1]; reflexivity.
  - destruct (disk_mkdir D st q) as [[e|] st1]; [reflexivity|].
    rewrite IH. destruct (mkdir_each D st1 paths) as [[log st2] [e'|]]; reflexivity.
Qed.

(** X19: with the nearest existing ancestor [k] levels up, [ensureDirectory]
    stats the path and its ancestors up to that one, then calls [fs.mkdir] on
    the missing ones from the top down, stopping at the first that fails; the
    callback receives that failure, or [null] when all were made. *)
Theorem ensureDirectory_chain (k : nat) :
  forall (fuel : nat) (dirPath : string) (st : St),
    k < fuel ->
    (forall j, j < k -> exists_on D st (ancestor j dirPath) = false) ->
    exists_on D st (ancestor k dirPath) = true ->
    ensureDirectory fuel D dirPath st =
      (map DStat (lineage dirPath (S k))
         ++ fst (fst (mkdir_each D st (rev (lineage dirPath k)))),
       snd (fst (mkdir_each D st (rev (lineage dirPath k)))),
       Some (snd (mkdir_each D st (rev (lineage dirPath k))))).
Proof.
  induction k as [|k IH]; intros [|fuel] dirPath st Hfuel Hmissing Hfound; try lia.
  - rewrite ensureDirectory_unfold. unfold exists_on in Hfound. simpl in Hfound.
    destruct (disk_stat D st dirPath); [reflexivity | discriminate].
  - rewrite ensureDirectory_unfold.
    pose proof (Hmissing 0 ltac:(lia)) as H0. unfold exists_on in H0. simpl in H0.
    destruct (disk_stat D st dirPath) as [stats|statErr]; [discriminate|].
    rewrite (IH fuel (Path.dirname dirPath) st).
    + rewrite (lineage_succ dirPath (S k)), (lineage_succ dirPath k).
      cbn [rev]. rewrite mkdir_each_snoc.
      destruct (mkdir_each D st (rev (lineage (Path.dirname dirPath) k)))
        as [[log st1] [e|]]; cbn [fst snd map]; [reflexivity|].
      rewrite <- app_assoc. reflexivity.
    + lia.
    + intros j Hj. rewrite <- ancestor_succ_r. apply Hmissing. lia.
    + rewrite <- ancestor_succ_r. exact Hfound.
Qed.

(** X20: over an [fs.mkdir] that keeps its promise, when [ensureDirectory]
    reports no error the path exists afterwards, whatever existed before
    still exists, and running it again is one [stat] that changes nothing. *)
Theorem ensureDirectory_creates (fuel : nat) :
  mkdir_creates D ->
  forall (dirPath : string) (st : St) (log : list DiskCall) (st' : St),
    ensureDirectory fuel D dirPath st = (log, st', Some None) ->
    exists_on D st' dirPath = true /\
    (forall q, exists_on D st q = true -> exists_on D st' q = true) /\
    ensureDirectory fuel D dirPath st' = ([DStat dirPath], st', Some None).
Proof.
  intros Hmk.
  assert (Hpost : forall fuel dirPath st log st',
             ensureDirectory fuel D dirPath st = (log, st', Some None) ->
             exists_on D st' dirPath = true /\
             (forall q, exists_on D st q = true -> exists_on D st' q = true)).
  { clear fuel. induction fuel as [|fuel IH]; intros dirPath st log st' Hrun;
      [discriminate|].
    rewrite ensureDirectory_unfold in Hrun.
    destruct (disk_stat D st dirPath) as [stats|e] eqn:Hstat.
    - injection Hrun as _ <-. unfold exists_on. rewrite Hstat. auto.
    - destruct (ensureDirectory fuel D (Path.dirname dirPath) st)
        as [[log1 st1] [[e1|]|]] eqn:Hrec; try discriminate.
      injection Hrun as _ Hst Herr.
      destruct (disk_mkdir D st1 dirPath) as [err st2] eqn:Hmkdir.
      simpl in Hst, Herr. subst err st2.
      destruct (Hmk _ _ _ Hmkdir) as [Hnew Hkeep].
      destruct (IH _ _ _ _ Hrec) as [_ Hkeep1].
      split; [exact Hnew|]. intros q Hq. apply Hkeep, Hkeep1, Hq. }
  intros dirPath st log st' Hrun.
  destruct (Hpost _ _ _ _ _ Hrun) as [Hnew Hkeep].
  split; [exact Hnew|]. split; [exact Hkeep|].
  destruct fuel as [|fuel]; [discriminate|].
  rewrite ensureDirectory_unfold. unfold exists_on in Hnew.
  destruct (disk_stat D st' dirPath); [reflexivity | discriminate].
Qed.

(** X21: when neither the path nor any of its ancestors can be stat'ed,
    [ensureDirectory] goes on to the parent without end: it never calls
    [fs.mkdir] and never reaches its callback. *)
Theorem ensureDirectory_no_base (fuel : nat) :
  forall (dirPath : string) (st : St),
    (forall j, exists_on D st (ancestor j dirPath) = false) ->
    ensureDirectory fuel D dirPath st = (map DStat (lineage dirPath fuel), st, None).
Proof.
  induction fuel as [|fuel IH]; intros dirPath st Hmissing; [reflexivity|].
  rewrite ensureDirectory_unfold.
  pose proof (Hmissing 0) as H0. unfold exists_on in H0. simpl in H0.
  destruct (disk_stat D st dirPath); [discriminate|].
  rewrite IH, lineage_succ; [reflexivity|].
  intros j. rewrite <- ancestor_succ_r. apply Hmissing.
Qed.
End EnsureDirectory.

Lemma directories_mkdir_creates : mkdir_creates directories.
Proof.
  intros st p st' Hmk. unfold directories, exists_on in *. simpl in *.
  destruct (bool_decide (p ∈ st)); [discriminate|].
  destruct (bool_decide (Path.dirname p ∈ st)); [|discriminate].
  injection Hmk as <-. split.
  - rewrite bool_decide_eq_true_2 by set_solver. reflexivity.
  - intros q. destruct (bool_decide (q ∈ st)) eqn:Hq; [|discriminate].
    apply bool_decide_eq_true in Hq. intros _.
    rewrite bool_decide_eq_true_2 by set_solver. reflexivity.
Qed.

Lemma ensureDirectory_chain_witness :
  ensureDirectory 5 directories "/a/b/c" {[ "/"; "/a" ]} =
    (map DStat (lineage "/a/b/c" 3)
       ++ fst (fst (mkdir_each directories {[ "/"; "/a" ]} (rev (lineage "/a/b/c" 2)))),
     snd (fst (mkdir_each directories {[ "/"; "/a" ]} (rev (lineage "/a/b/c" 2)))),
     Some (snd (mkdir_each directories {[ "/"; "/a" ]} (rev (lineage "/a/b/c" 2))))).
Proof.
  apply (ensureDirectory_chain directories 2 5 "/a/b/c" {[ "/"; "/a" ]}).
  - lia.
  - intros j Hj. destruct j as [|[|j]]; [reflexivity | reflexivity | lia].
  - reflexivity.
Defined.

Example ensureDirectory_makes_missing :
  let '(log, st, outcome) := ensureDirectory 5 directories "/a/b/c" {[ "/"; "/a" ]} in
  (log, outcome) =
    ([DStat "/a/b/c"; DStat "/a/b"; DStat "/a"; DMkdir "/a/b"; DMkdir "/a/b/c"], Some None)
  /\ st = {[ "/"; "/a"; "/a/b"; "/a/b/c" ]}.
Proof. vm_compute. split; reflexivity. Qed.

Lemma ensureDirectory_creates_witness :
  exists_on directories {[ "/a/b"; "/"; "/a" ]} "/a/b" = true /\
  (forall q, exists_on directories {[ "/"; "/a" ]} q = true ->
             exists_on directories {[ "/a/b"; "/"; "/a" ]} q = true) /\
  ensureDirectory 5 directories "/a/b" {[ "/a/b"; "/"; "/a" ]}
    = ([DStat "/a/b"], {[ "/a/b"; "/"; "/a" ]}, Some None).
Proof.
  apply (ensureDirectory_creates directories 5 directories_mkdir_creates
           "/a/b" {[ "/"; "/a" ]} [DStat "/a/b"; DStat "/a"; DMkdir "/a/b"]).
  reflexivity.
Defined.

Lemma ensureDirectory_no_base_witness :
  ensureDirectory 4 directories "a/b" ∅ = (map DStat (lineage "a/b" 4), ∅, None).
Proof.
  apply (ensureDirectory_no_base directories 4 "a/b" ∅).
  intros j. unfold exists_on. simpl.
  rewrite bool_decide_eq_false_2 by set_solver. reflexivity.
Defined.
